(** * Shuffled binary search: a shallow embedding of binsearchshuffle.c

    The C functions work on an [int] array through a pointer and a count.
    The array is a [list Z].  An [int] is a [Z] in the range of 32 bits: the
    sums and differences the code computes on [int] wrap around, its
    quotients truncate toward zero, and pointer arithmetic is exact.  Reads
    and writes outside the array, and a push on the full work stack, are
    faults; every loop runs on fuel, and running out of it is a third
    outcome, so that "the function returns" is a statement of its own. *)

From Stdlib Require Import ZArith List Lia Bool Sorted Permutation.
Import ListNotations.
Local Open Scope Z_scope.

(** ** Outcomes of a run *)

Inductive exec (A : Type) : Type :=
| Done (a : A)
| Fault
| Diverge.
Arguments Done {A} a.
Arguments Fault {A}.
Arguments Diverge {A}.

Definition bind {A B : Type} (m : exec A) (k : A -> exec B) : exec B :=
  match m with
  | Done a => k a
  | Fault => Fault
  | Diverge => Diverge
  end.

Notation "x <- m ;; k" := (bind m (fun x => k))
  (at level 61, m at next level, right associativity).
Notation "' p <- m ;; k" := (bind m (fun p => k))
  (at level 61, p pattern, m at next level, right associativity).

(** ** [int] *)

Definition INT_MAX : Z := 2147483647.
Definition INT_MIN : Z := -2147483648.

(** The [int] that holds [z] modulo two to the 32. *)
Definition wrap (z : Z) : Z := (z - INT_MIN) mod 4294967296 + INT_MIN.

Definition iadd (x y : Z) : Z := wrap (x + y).
Definition isub (x y : Z) : Z := wrap (x - y).

Infix "⊕" := iadd (at level 50, left associativity) : Z_scope.
Infix "⊖" := isub (at level 50, left associativity) : Z_scope.

(** C's [/] on [int] truncates toward zero. *)
Infix "÷" := Z.quot (at level 40, left associativity) : Z_scope.

(** ** The array *)

Module Mem.

(** [array[i]] as an rvalue. *)
Definition rd (a : list Z) (i : Z) : exec Z :=
  if i <? 0 then Fault
  else match nth_error a (Z.to_nat i) with
       | Some v => Done v
       | None => Fault
       end.

Fixpoint upd (a : list Z) (n : nat) (v : Z) : exec (list Z) :=
  match a, n with
  | [], _ => Fault
  | _ :: t, O => Done (v :: t)
  | x :: t, S n' => t' <- upd t n' v ;; Done (x :: t')
  end.

(** [array[i] = v]. *)
Definition wr (a : list Z) (i v : Z) : exec (list Z) :=
  if i <? 0 then Fault else upd a (Z.to_nat i) v.

(** [memmove(&array[dst], &array[src], sizeof(array[0]) * n)]: the [n]
    elements from [src] are copied as if through a buffer.  The pointers
    [array + i + 1] of the callers are [dst] or [src] at [i + 1], exact. *)
Definition memmove (a : list Z) (dst src n : Z) : exec (list Z) :=
  if (n <? 0) || (dst <? 0) || (src <? 0)
     || (Z.of_nat (length a) <? src + n) || (Z.of_nat (length a) <? dst + n)
  then Fault
  else Done (firstn (Z.to_nat dst) a
             ++ firstn (Z.to_nat n) (skipn (Z.to_nat src) a)
             ++ skipn (Z.to_nat (dst + n)) a).

End Mem.
Import Mem.

(** ** ShuffleSortedArray *)

Definition MAX_SHUFFLE_COUNT_LOG2 : Z := 64.

(** [struct { int first, count; }], an entry of [aStack]. *)
Record frame : Type := Frame { fr_first : Z; fr_count : Z }.

(** [aStack[stk] = f; stk++], with [aStack] of [MAX_SHUFFLE_COUNT_LOG2]
    entries; the list holds the live entries, the newest first. *)
Definition push (aStack : list frame) (f : frame) : exec (list frame) :=
  if Z.of_nat (length aStack) <? MAX_SHUFFLE_COUNT_LOG2
  then Done (f :: aStack) else Fault.

(** [stk--; first = aStack[stk].first; count = aStack[stk].count]. *)
Definition pop (aStack : list frame) : exec (Z * Z * list frame) :=
  match aStack with
  | [] => Fault
  | f :: rest => Done (fr_first f, fr_count f, rest)
  end.

Definition stack_empty (aStack : list frame) : bool :=
  match aStack with [] => true | _ :: _ => false end.

(** [tmp = array[i]; array[i] = array[j]; array[j] = tmp]. *)
Definition swap (a : list Z) (i j : Z) : exec (list Z) :=
  tmp <- rd a i ;;
  x <- rd a j ;;
  a <- wr a i x ;;
  wr a j tmp.

(** [tmp = array[i]; array[i] = array[j]; array[j] = array[k];
    array[k] = tmp]. *)
Definition shift3 (a : list Z) (i j k : Z) : exec (list Z) :=
  tmp <- rd a i ;;
  x <- rd a j ;;
  a <- wr a i x ;;
  y <- rd a k ;;
  a <- wr a j y ;;
  wr a k tmp.

(** The [default:] arm of the switch of [ShuffleSortedArray]. *)
Definition ShuffleSortedArray_default (a : list Z) (first count : Z)
    (aStack : list frame) : exec (list Z * Z * Z * list frame) :=
  tmp <- rd a (first ⊕ count ÷ 2) ;;
  a <- memmove a (first ⊕ 1) first (count ÷ 2) ;;
  a <- wr a first tmp ;;
  let first := first ⊕ 1 in
  aStack <- push aStack (Frame (first ⊕ count ÷ 2) ((count ⊖ 1) ÷ 2)) ;;
  Done (a, first, count ÷ 2, aStack).

(** The [switch (count)] of [ShuffleSortedArray]. *)
Definition ShuffleSortedArray_switch (a : list Z) (first count : Z)
    (aStack : list frame) : exec (list Z * Z * Z * list frame) :=
  match count with
  | 2 | 3 =>
      a <- swap a first (first ⊕ 1) ;;
      Done (a, first, 0, aStack)
  | 4 =>
      a <- swap a first (first ⊕ 2) ;;
      Done (a, first, 0, aStack)
  | 5 =>
      a <- swap a first (first ⊕ 2) ;;
      a <- swap a (first ⊕ 3) (first ⊕ 4) ;;
      Done (a, first, 0, aStack)
  | 6 | 7 =>
      a <- shift3 a first (first ⊕ 3) (first ⊕ 2) ;;
      a <- swap a (first ⊕ 4) (first ⊕ 5) ;;
      Done (a, first, 0, aStack)
  | 8 =>
      a <- shift3 a first (first ⊕ 4) (first ⊕ 3) ;;
      a <- swap a (first ⊕ 1) (first ⊕ 2) ;;
      a <- swap a (first ⊕ 5) (first ⊕ 6) ;;
      Done (a, first, 0, aStack)
  | _ => ShuffleSortedArray_default a first count aStack
  end.

(** [while (count>1 || stk) { if (count<=1) pop; switch (count) ... }] *)
Fixpoint ShuffleSortedArray_loop (fuel : nat) (a : list Z) (first count : Z)
    (aStack : list frame) : exec (list Z) :=
  if (1 <? count) || negb (stack_empty aStack) then
    match fuel with
    | O => Diverge
    | S fuel' =>
        '(first, count, aStack) <-
          (if count <=? 1 then pop aStack else Done (first, count, aStack)) ;;
        '(a, first, count, aStack) <-
          ShuffleSortedArray_switch a first count aStack ;;
        ShuffleSortedArray_loop fuel' a first count aStack
    end
  else Done a.

Definition ShuffleSortedArray (a : list Z) (count : Z) : exec (list Z) :=
  ShuffleSortedArray_loop (Z.to_nat count) a 0 count [].

(** ** ShuffledBinarySearch *)

(** The loop of [ShuffledBinarySearch], instrumented: the first component
    lists the indices at which [shuffled_array] is read, in order. *)
Fixpoint ShuffledBinarySearch_loop (fuel : nat) (value : Z) (a : list Z)
    (index count : Z) : list Z * exec Z :=
  if count =? 0 then ([], Done (-1))
  else
    match fuel with
    | O => ([], Diverge)
    | S fuel' =>
        match rd a index with
        | Done read =>
            if value =? read then ([index], Done index)
            else
              let '(index', count') :=
                if read <? value
                then (index ⊕ (count ÷ 2 ⊕ 1), (count ⊖ 1) ÷ 2)
                else (index ⊕ 1, count ÷ 2) in
              let '(reads, r) :=
                ShuffledBinarySearch_loop fuel' value a index' count' in
              (index :: reads, r)
        | Fault => ([index], Fault)
        | Diverge => ([index], Diverge)
        end
    end.

Definition ShuffledBinarySearch_reads (value : Z) (a : list Z) (count : Z)
  : list Z :=
  fst (ShuffledBinarySearch_loop (Z.to_nat count) value a 0 count).

Definition ShuffledBinarySearch (value : Z) (a : list Z) (count : Z)
  : exec Z :=
  snd (ShuffledBinarySearch_loop (Z.to_nat count) value a 0 count).

(** ** DeshuffleIndex *)

Fixpoint DeshuffleIndex_loop (fuel : nat) (index count m d : Z) : exec Z :=
  if index =? 0 then Done d
  else
    match fuel with
    | O => Diverge
    | S fuel' =>
        let '(index, count, d) :=
          if m <? index
          then (index ⊖ (m ⊕ 1), (count ⊖ 1) ÷ 2, d ⊕ 1)
          else (index ⊖ 1, m, d ⊖ m) in
        let m := count ÷ 2 in
        let d := d ⊕ m in
        DeshuffleIndex_loop fuel' index count m d
    end.

Definition DeshuffleIndex (index count : Z) : exec Z :=
  if (index <? 0) || (count <=? index) then Done (-1)
  else
    let m := count ÷ 2 in
    let d := m in
    DeshuffleIndex_loop (Z.to_nat index) index count m d.

(** ** SortShuffledArray *)

(** The [default:] arm of the switch of [SortShuffledArray]. *)
Definition SortShuffledArray_default (a : list Z) (first count : Z)
    (aStack : list frame) : exec (list Z * Z * Z * list frame) :=
  tmp <- rd a first ;;
  a <- memmove a first (first ⊕ 1) (count ÷ 2) ;;
  a <- wr a (first ⊕ count ÷ 2) tmp ;;
  aStack <- push aStack (Frame (first ⊕ 1 ⊕ count ÷ 2) ((count ⊖ 1) ÷ 2)) ;;
  Done (a, first, count ÷ 2, aStack).

Definition SortShuffledArray_switch (a : list Z) (first count : Z)
    (aStack : list frame) : exec (list Z * Z * Z * list frame) :=
  match count with
  | 2 | 3 =>
      a <- swap a first (first ⊕ 1) ;;
      Done (a, first, 0, aStack)
  | 4 =>
      a <- swap a first (first ⊕ 2) ;;
      Done (a, first, 0, aStack)
  | 5 =>
      a <- swap a first (first ⊕ 2) ;;
      a <- swap a (first ⊕ 3) (first ⊕ 4) ;;
      Done (a, first, 0, aStack)
  | 6 | 7 =>
      a <- shift3 a first (first ⊕ 2) (first ⊕ 3) ;;
      a <- swap a (first ⊕ 4) (first ⊕ 5) ;;
      Done (a, first, 0, aStack)
  | _ => SortShuffledArray_default a first count aStack
  end.

Fixpoint SortShuffledArray_loop (fuel : nat) (a : list Z) (first count : Z)
    (aStack : list frame) : exec (list Z) :=
  if (1 <? count) || negb (stack_empty aStack) then
    match fuel with
    | O => Diverge
    | S fuel' =>
        '(first, count, aStack) <-
          (if count <=? 1 then pop aStack else Done (first, count, aStack)) ;;
        '(a, first, count, aStack) <-
          SortShuffledArray_switch a first count aStack ;;
        SortShuffledArray_loop fuel' a first count aStack
    end
  else Done a.

Definition SortShuffledArray (a : list Z) (count : Z) : exec (list Z) :=
  SortShuffledArray_loop (Z.to_nat count) a 0 count [].

(** ** RemoveShuffledArrayValue and InsertShuffledArrayValue *)

(** Both return the array together with the new count. *)
Definition RemoveShuffledArrayValue (value : Z) (a : list Z) (count : Z)
  : exec (list Z * Z) :=
  index <- ShuffledBinarySearch value a count ;;
  if 0 <=? index then
    a <- SortShuffledArray a count ;;
    deshuf <- DeshuffleIndex index count ;;
    a <- (if deshuf <? count ⊖ 1
          then memmove a deshuf (deshuf + 1) (count ⊖ 1 ⊖ deshuf)
          else Done a) ;;
    let count := count ⊖ 1 in
    a <- ShuffleSortedArray a count ;;
    Done (a, count)
  else Done (a, count).

(** The slot search of [InsertShuffledArrayValue]; the result is
    [(first, end, index)] on leaving the loop, by [break] or by the test. *)
Fixpoint InsertShuffledArrayValue_loop (fuel : nat) (value : Z) (a : list Z)
    (first end_ index : Z) : exec (Z * Z * Z) :=
  if end_ =? first then Done (first, end_, index)
  else
    match fuel with
    | O => Diverge
    | S fuel' =>
        let index := (first ⊕ end_) ÷ 2 in
        read <- rd a index ;;
        found <-
          (if value <? read then
             if index =? 0 then Done true
             else prev <- rd a (index ⊖ 1) ;; Done (prev <? value)
           else Done false) ;;
        if found : bool then Done (first, end_, index)
        else if read <? value
        then InsertShuffledArrayValue_loop fuel' value a (index ⊕ 1) end_ index
        else InsertShuffledArrayValue_loop fuel' value a first index index
    end.

Definition InsertShuffledArrayValue (value : Z) (a : list Z) (count : Z)
  : exec (list Z * Z) :=
  found <- ShuffledBinarySearch value a count ;;
  if found <? 0 then
    a <- SortShuffledArray a count ;;
    '(first, end_, index) <-
      InsertShuffledArrayValue_loop (Z.to_nat count) value a 0 count 0 ;;
    '(a, index) <-
      (if end_ =? first then Done (a, count)
       else a <- memmove a (index + 1) index (count ⊖ index) ;;
            Done (a, index)) ;;
    a <- wr a index value ;;
    let count := count ⊕ 1 in
    a <- ShuffleSortedArray a count ;;
    Done (a, count)
  else Done (a, count).

(** ** The layout, as a function of the sorted order

    [layout s] puts the element at index [length s / 2] first, then the
    layout of the elements before it, then the layout of those after it.
    [unlayout] reads the same shape backwards. *)

Section Layout.
Context {A : Type}.

Fixpoint layout_rec (fuel : nat) (s : list A) : list A :=
  match fuel with
  | O => s
  | S fuel' =>
      let h := Nat.div2 (length s) in
      match skipn h s with
      | [] => []
      | m :: hi => m :: layout_rec fuel' (firstn h s) ++ layout_rec fuel' hi
      end
  end.

Definition layout (s : list A) : list A := layout_rec (length s) s.

Fixpoint unlayout_rec (fuel : nat) (t : list A) : list A :=
  match fuel, t with
  | S fuel', m :: rest =>
      let h := Nat.div2 (length t) in
      unlayout_rec fuel' (firstn h rest) ++ m :: unlayout_rec fuel' (skipn h rest)
  | _, _ => t
  end.

Definition unlayout (t : list A) : list A := unlayout_rec (length t) t.

End Layout.

(** ** The layout invariant, as the specification words it *)

Definition floor_half (n : nat) : nat := Nat.div2 n.
Definition ceil_half (n : nat) : nat := Nat.div2 (n + 1).

(** [Layout upper s t]: [t] lays out the block whose sorted order is [s].
    The block is empty, or [s] is [lo], the median [m], [hi]; position 0 of
    [t] holds [m], the next [floor_half n] positions hold the layout of [lo]
    and the remaining [upper n] positions hold the layout of [hi], where [n]
    is the length of the block. *)
Inductive Layout (upper : nat -> nat) : list Z -> list Z -> Prop :=
| Layout_empty : Layout upper [] []
| Layout_block lo m hi lo' hi' :
    length lo' = floor_half (length (lo ++ m :: hi)) ->
    length hi' = upper (length (lo ++ m :: hi)) ->
    Layout upper lo lo' ->
    Layout upper hi hi' ->
    Layout upper (lo ++ m :: hi) (m :: lo' ++ hi').

(** The size of the upper block as the specification gives it, and as the
    code has it. *)
Definition upper_ceil (n : nat) : nat := ceil_half (n - 1).
Definition upper_floor (n : nat) : nat := floor_half (n - 1).

(** ** Sorted sequences, and the sorted order after a change *)

(** [ascending s]: each element is at most its successor. *)
Fixpoint ascending (s : list Z) : bool :=
  match s with
  | x :: (y :: _) as t => (x <=? y) && ascending t
  | _ => true
  end.

(** [strictly_ascending s]: each element is below its successor, so no value
    occurs twice. *)
Fixpoint strictly_ascending (s : list Z) : bool :=
  match s with
  | x :: (y :: _) as t => (x <? y) && strictly_ascending t
  | _ => true
  end.

(** [insert_sorted k s]: [k] put before the first element it does not
    exceed. *)
Fixpoint insert_sorted (k : Z) (s : list Z) : list Z :=
  match s with
  | [] => [k]
  | x :: t => if k <=? x then k :: s else x :: insert_sorted k t
  end.

(** [remove_one k s]: [s] without the first occurrence of [k]. *)
Fixpoint remove_one (k : Z) (s : list Z) : list Z :=
  match s with
  | [] => []
  | x :: t => if x =? k then t else x :: remove_one k t
  end.

(** ** Room on the work stack *)

(** The work stack has room as long as the block times two to the number
    of pending entries stays below two to the number of slots. *)
Definition stack_room (n : nat) (stk : list frame) : Prop :=
  Z.of_nat n * 2 ^ Z.of_nat (length stk) < 2 ^ MAX_SHUFFLE_COUNT_LOG2.

(** ** RegularBinarySearch *)

(** [while (end!=first) { index = (first+end)/2; ... }], the binary search
    on the sorted array that the shuffled one is compared with. *)
Fixpoint RegularBinarySearch_loop (fuel : nat) (value : Z) (a : list Z)
    (first end_ : Z) : exec Z :=
  if end_ =? first then Done (-1)
  else
    match fuel with
    | O => Diverge
    | S fuel' =>
        let index := (first ⊕ end_) ÷ 2 in
        read <- rd a index ;;
        if value =? read then Done index
        else if read <? value
        then RegularBinarySearch_loop fuel' value a (index ⊕ 1) end_
        else RegularBinarySearch_loop fuel' value a first index
    end.

Definition RegularBinarySearch (value : Z) (a : list Z) (end_ : Z) : exec Z :=
  RegularBinarySearch_loop (Z.to_nat end_) value a 0 end_.

(** ** TestShuffle, the test of the repository *)

Definition MAX_ARRAY_SIZE : Z := 1024.

(** [memcpy(dst, src, n*sizeof(int))] from one array to another. *)
Definition memcpy (dst src : list Z) (n : Z) : exec (list Z) :=
  if (n <? 0) || (Z.of_nat (length src) <? n) || (Z.of_nat (length dst) <? n)
  then Fault
  else Done (firstn (Z.to_nat n) src ++ skipn (Z.to_nat n) dst).

(** The loop that makes the sorted values differ:
    [if (values[i]==values[i+1]) next_add++; values[i] += add;
     add += next_add]. *)
Fixpoint TestShuffle_unique (fuel : nat) (values : list Z) (count add i : Z)
  : exec (list Z) :=
  if i <? count then
    match fuel with
    | O => Diverge
    | S fuel' =>
        let next_add := 0 in
        x <- rd values i ;;
        y <- rd values (i ⊕ 1) ;;
        let next_add := if x =? y then next_add ⊕ 1 else next_add in
        v <- rd values i ;;
        values <- wr values i (v ⊕ add) ;;
        let add := add ⊕ next_add in
        TestShuffle_unique fuel' values count add (i ⊕ 1)
    end
  else Done values.

(** The loop that looks every value up:
    [index = ShuffledBinarySearch(values[i], shuffled, count);
     deshuffled_index = DeshuffleIndex(index, count);
     if (i!=deshuffled_index) success = 0] (the [printf] left out). *)
Fixpoint TestShuffle_find (fuel : nat) (values shuffled : list Z)
    (count success i : Z) : exec Z :=
  if i <? count then
    match fuel with
    | O => Diverge
    | S fuel' =>
        v <- rd values i ;;
        index <- ShuffledBinarySearch v shuffled count ;;
        deshuffled_index <- DeshuffleIndex index count ;;
        let success := if negb (i =? deshuffled_index) then 0 else success in
        TestShuffle_find fuel' values shuffled count success (i ⊕ 1)
    end
  else Done success.

(** One round of the outer loop, from the sorted [values] on. *)
Definition TestShuffle_round (values shuffled : list Z) (count success : Z)
  : exec (list Z * list Z * Z) :=
  values <- TestShuffle_unique (Z.to_nat count) values count 0 0 ;;
  shuffled <- memcpy shuffled values count ;;
  shuffled <- ShuffleSortedArray shuffled count ;;
  success <- TestShuffle_find (Z.to_nat count) values shuffled count success 0 ;;
  Done (values, shuffled, success).

(** [for (count = 2; count<MAX_ARRAY_SIZE; count++)].  The calls of [rand]
    and [qsort] that fill [values] are the parameter [sorted_rand]: it maps
    the count and the array before the round to the array after them. *)
Fixpoint TestShuffle_loop (sorted_rand : Z -> list Z -> list Z) (fuel : nat)
    (values shuffled : list Z) (count success : Z) : exec Z :=
  if count <? MAX_ARRAY_SIZE then
    match fuel with
    | O => Diverge
    | S fuel' =>
        let values := sorted_rand count values in
        '(values, shuffled, success) <-
          TestShuffle_round values shuffled count success ;;
        TestShuffle_loop sorted_rand fuel' values shuffled (count ⊕ 1) success
    end
  else Done success.

(** [values] and [shuffled] are the two local arrays, of [MAX_ARRAY_SIZE]
    elements that are not initialised. *)
Definition TestShuffle (sorted_rand : Z -> list Z -> list Z)
    (values shuffled : list Z) : exec Z :=
  let success := 1 in
  TestShuffle_loop sorted_rand (Z.to_nat MAX_ARRAY_SIZE) values shuffled 2
    success.

(** What [TestShuffle_unique] leaves of the elements [l] that are followed
    by [y], when [add] is to be added to the first of them. *)
Fixpoint spread (add : Z) (l : list Z) (y : Z) : list Z :=
  match l with
  | [] => []
  | x :: t =>
      (x + add) :: spread (add + (if x =? hd y t then 1 else 0)) t y
  end.

Ltac Zify.zify_post_hook ::= Z.to_euclidean_division_equations.

(** ** Sums and differences that stay within [int] *)

Lemma wrap_small z : INT_MIN <= z <= INT_MAX -> wrap z = z.
Proof.
  unfold wrap, INT_MIN, INT_MAX. intros Hz.
  rewrite Z.mod_small by lia. lia.
Qed.

(** Rewrites every [⊕] and [⊖] whose exact result is in range, by the
    bounds at hand. *)
Ltac unwrap :=
  unfold iadd, isub;
  repeat match goal with
         | |- context [wrap ?z] =>
             rewrite (wrap_small z) by (unfold INT_MIN, INT_MAX in *; lia)
         end.

(** Lists built with [++] and [::], brought to one shape. *)
Ltac norm_app :=
  repeat first [ rewrite <- app_assoc | progress cbn [app] ].

(** ** Lists cut at an index *)

Section ListFacts.
Context {A : Type}.
Implicit Types l pre lo hi s t : list A.
Implicit Types m : A.

Lemma firstn_app_exact l1 l2 : firstn (length l1) (l1 ++ l2) = l1.
Proof.
  rewrite firstn_app, Nat.sub_diag, firstn_all. simpl. apply app_nil_r.
Qed.

Lemma skipn_app_exact l1 l2 : skipn (length l1) (l1 ++ l2) = l2.
Proof.
  rewrite skipn_app, Nat.sub_diag, skipn_all. reflexivity.
Qed.

Lemma firstn_app_at n l1 l2 : n = length l1 -> firstn n (l1 ++ l2) = l1.
Proof. intros ->. apply firstn_app_exact. Qed.

Lemma skipn_app_at n l1 l2 : n = length l1 -> skipn n (l1 ++ l2) = l2.
Proof. intros ->. apply skipn_app_exact. Qed.

Lemma nth_error_app_at n l1 x l2 :
  n = length l1 -> nth_error (l1 ++ x :: l2) n = Some x.
Proof.
  intros ->. rewrite nth_error_app2, Nat.sub_diag by lia. reflexivity.
Qed.

Lemma list_eq_nil_dec l : {l = []} + {l <> []}.
Proof. destruct l; [left; reflexivity|right; discriminate]. Qed.

(** Every non-empty list splits around the element at half its length. *)
Lemma split_median l :
  l <> [] ->
  exists lo m hi, l = lo ++ m :: hi /\ length lo = Nat.div2 (length l).
Proof.
  intros Hne.
  destruct (skipn (Nat.div2 (length l)) l) as [|m hi] eqn:E.
  - apply skipn_all_iff in E. destruct l; [congruence|]. cbn [length] in E. lia.
  - exists (firstn (Nat.div2 (length l)) l), m, hi. split.
    + rewrite <- E. symmetry. apply firstn_skipn.
    + rewrite length_firstn. lia.
Qed.

(** Induction along the blocks of the layout, on the sorted side. *)
Lemma median_ind (P : list A -> Prop) :
  P [] ->
  (forall lo m hi,
      length lo = Nat.div2 (length (lo ++ m :: hi)) ->
      P lo -> P hi -> P (lo ++ m :: hi)) ->
  forall l, P l.
Proof.
  intros Hnil Hnode l.
  remember (length l) as n eqn:En. revert l En.
  induction n as [n IH] using lt_wf_ind. intros l En.
  destruct (list_eq_nil_dec l) as [->|Hne]; [exact Hnil|].
  destruct (split_median l Hne) as (lo & m & hi & -> & Hlo).
  rewrite length_app in En. simpl in En.
  apply Hnode; [exact Hlo| |].
  - apply (IH (length lo)); [lia|reflexivity].
  - apply (IH (length hi)); [lia|reflexivity].
Qed.

(** The same on the shuffled side: the head, then two blocks. *)
Lemma split_head l :
  l <> [] ->
  exists m lo hi, l = m :: lo ++ hi /\ length lo = Nat.div2 (length l).
Proof.
  destruct l as [|m rest]; [congruence|]. intros _.
  exists m, (firstn (Nat.div2 (length (m :: rest))) rest),
    (skipn (Nat.div2 (length (m :: rest))) rest).
  rewrite firstn_skipn, length_firstn. simpl length. split; [reflexivity|lia].
Qed.

Lemma head_ind (P : list A -> Prop) :
  P [] ->
  (forall m lo hi,
      length lo = Nat.div2 (length (m :: lo ++ hi)) ->
      P lo -> P hi -> P (m :: lo ++ hi)) ->
  forall l, P l.
Proof.
  intros Hnil Hnode l.
  remember (length l) as n eqn:En. revert l En.
  induction n as [n IH] using lt_wf_ind. intros l En.
  destruct (list_eq_nil_dec l) as [->|Hne]; [exact Hnil|].
  destruct (split_head l Hne) as (m & lo & hi & -> & Hlo).
  simpl in En. rewrite length_app in En.
  apply Hnode; [exact Hlo| |].
  - apply (IH (length lo)); [lia|reflexivity].
  - apply (IH (length hi)); [lia|reflexivity].
Qed.

(** *** Unfolding [layout] and [unlayout] *)

Lemma layout_rec_fuel f : forall g (s : list A),
  (length s <= f)%nat -> (length s <= g)%nat ->
  layout_rec f s = layout_rec g s.
Proof.
  induction f as [|f IH]; intros g s Hf Hg.
  - destruct s; [|simpl in Hf; lia]. destruct g; reflexivity.
  - destruct g as [|g].
    + destruct s; [reflexivity|simpl in Hg; lia].
    + simpl. destruct (skipn (Nat.div2 (length s)) s) as [|m hi] eqn:E;
        [reflexivity|].
      assert (Hlen : length (m :: hi) = (length s - Nat.div2 (length s))%nat)
        by (rewrite <- E; apply length_skipn).
      simpl in Hlen.
      pose proof (firstn_le_length (Nat.div2 (length s)) s).
      f_equal. f_equal; apply IH; lia.
Qed.

Lemma layout_nil : layout (@nil A) = [].
Proof. reflexivity. Qed.

Lemma layout_node lo m hi :
  length lo = Nat.div2 (length (lo ++ m :: hi)) ->
  layout (lo ++ m :: hi) = m :: layout lo ++ layout hi.
Proof.
  intros Hlo. unfold layout.
  assert (Hlen : length (lo ++ m :: hi) = S (length lo + length hi))
    by (rewrite length_app; simpl; lia).
  rewrite Hlen. cbn [layout_rec]. rewrite <- Hlo.
  rewrite skipn_app_exact, firstn_app_exact.
  f_equal. f_equal; apply layout_rec_fuel; lia.
Qed.

Lemma unlayout_rec_fuel f : forall g (t : list A),
  (length t <= f)%nat -> (length t <= g)%nat ->
  unlayout_rec f t = unlayout_rec g t.
Proof.
  induction f as [|f IH]; intros g t Hf Hg.
  - destruct t; [|simpl in Hf; lia]. destruct g; reflexivity.
  - destruct g as [|g].
    + destruct t; [reflexivity|simpl in Hg; lia].
    + destruct t as [|m rest]; [reflexivity|].
      cbn [unlayout_rec]. simpl in Hf, Hg.
      pose proof (firstn_le_length (Nat.div2 (length (m :: rest))) rest).
      pose proof (length_skipn (Nat.div2 (length (m :: rest))) rest).
      cbn [length] in *.
      f_equal; [|f_equal]; apply IH; lia.
Qed.

Lemma unlayout_node m lo hi :
  length lo = Nat.div2 (length (m :: lo ++ hi)) ->
  unlayout (m :: lo ++ hi) = unlayout lo ++ m :: unlayout hi.
Proof.
  intros Hlo. unfold unlayout.
  assert (Hlen : length (m :: lo ++ hi) = S (length lo + length hi))
    by (simpl; rewrite length_app; lia).
  rewrite Hlen. cbn [unlayout_rec]. rewrite <- Hlo.
  rewrite skipn_app_exact, firstn_app_exact.
  f_equal; [|f_equal]; apply unlayout_rec_fuel; lia.
Qed.

Lemma length_layout (s : list A) : length (layout s) = length s.
Proof.
  induction s as [|lo m hi Hlo IHlo IHhi] using median_ind; [reflexivity|].
  rewrite layout_node by exact Hlo.
  simpl. rewrite !length_app. simpl. lia.
Qed.

Lemma length_unlayout (t : list A) : length (unlayout t) = length t.
Proof.
  induction t as [|m lo hi Hlo IHlo IHhi] using head_ind; [reflexivity|].
  rewrite unlayout_node by exact Hlo.
  simpl. rewrite !length_app. simpl. lia.
Qed.

Lemma unlayout_layout (s : list A) : unlayout (layout s) = s.
Proof.
  induction s as [|lo m hi Hlo IHlo IHhi] using median_ind; [reflexivity|].
  rewrite layout_node by exact Hlo.
  rewrite unlayout_node, IHlo, IHhi; [reflexivity|].
  cbn [length]. rewrite length_app, !length_layout.
  rewrite length_app in Hlo. cbn [length] in Hlo. lia.
Qed.

Lemma layout_unlayout (t : list A) : layout (unlayout t) = t.
Proof.
  induction t as [|m lo hi Hlo IHlo IHhi] using head_ind; [reflexivity|].
  rewrite unlayout_node by exact Hlo.
  rewrite layout_node, IHlo, IHhi; [reflexivity|].
  rewrite length_app. cbn [length]. rewrite !length_unlayout.
  cbn [length] in Hlo. rewrite length_app in Hlo. lia.
Qed.

End ListFacts.

(** ** Reads and writes below a prefix *)

Section MemFacts.
Implicit Types a l pre : list Z.

Lemma rd_frame pre l k :
  0 <= k -> rd (pre ++ l) (Z.of_nat (length pre) + k) = rd l k.
Proof.
  intros Hk. unfold rd.
  destruct (Z.ltb_spec (Z.of_nat (length pre) + k) 0); [lia|].
  destruct (Z.ltb_spec k 0); [lia|].
  rewrite nth_error_app2 by lia.
  replace (Z.to_nat (Z.of_nat (length pre) + k) - length pre)%nat
    with (Z.to_nat k) by lia.
  reflexivity.
Qed.

Lemma rd_frame0 pre l : rd (pre ++ l) (Z.of_nat (length pre)) = rd l 0.
Proof.
  rewrite <- (rd_frame pre l 0) by lia. f_equal. lia.
Qed.

Lemma rd_middle pre lo m rest :
  rd (pre ++ lo ++ m :: rest) (Z.of_nat (length pre) + Z.of_nat (length lo))
  = Done m.
Proof.
  rewrite rd_frame by lia. unfold rd.
  destruct (Z.ltb_spec (Z.of_nat (length lo)) 0); [lia|].
  rewrite nth_error_app_at by lia. reflexivity.
Qed.

Lemma upd_frame pre : forall l n v,
  upd (pre ++ l) (length pre + n) v = a' <- upd l n v ;; Done (pre ++ a').
Proof.
  induction pre as [|x pre IH]; intros l n v; cbn [app length Nat.add].
  - destruct (upd l n v); reflexivity.
  - cbn [upd]. rewrite IH. destruct (upd l n v); reflexivity.
Qed.

Lemma upd_here l1 x l2 v : upd (l1 ++ x :: l2) (length l1) v = Done (l1 ++ v :: l2).
Proof.
  rewrite <- (Nat.add_0_r (length l1)), upd_frame. reflexivity.
Qed.

Lemma wr_frame pre l k v :
  0 <= k ->
  wr (pre ++ l) (Z.of_nat (length pre) + k) v
  = a' <- wr l k v ;; Done (pre ++ a').
Proof.
  intros Hk. unfold wr.
  destruct (Z.ltb_spec (Z.of_nat (length pre) + k) 0); [lia|].
  destruct (Z.ltb_spec k 0); [lia|].
  replace (Z.to_nat (Z.of_nat (length pre) + k))
    with (length pre + Z.to_nat k)%nat by lia.
  apply upd_frame.
Qed.

Lemma wr_frame0 pre l v :
  wr (pre ++ l) (Z.of_nat (length pre)) v = a' <- wr l 0 v ;; Done (pre ++ a').
Proof.
  rewrite <- (wr_frame pre l 0) by lia. f_equal. lia.
Qed.

Lemma wr_here l1 x l2 i v :
  i = Z.of_nat (length l1) -> wr (l1 ++ x :: l2) i v = Done (l1 ++ v :: l2).
Proof.
  intros ->. unfold wr.
  destruct (Z.ltb_spec (Z.of_nat (length l1)) 0); [lia|].
  rewrite Nat2Z.id. apply upd_here.
Qed.

Lemma swap_frame pre l i j :
  0 <= i -> 0 <= j ->
  swap (pre ++ l) (Z.of_nat (length pre) + i) (Z.of_nat (length pre) + j)
  = a' <- swap l i j ;; Done (pre ++ a').
Proof.
  intros Hi Hj. unfold swap. rewrite !rd_frame by assumption.
  destruct (rd l i) as [tmp| |]; cbn [bind]; [|reflexivity..].
  destruct (rd l j) as [x| |]; cbn [bind]; [|reflexivity..].
  rewrite wr_frame by assumption.
  destruct (wr l i x) as [a1| |]; cbn [bind]; [|reflexivity..].
  apply wr_frame; assumption.
Qed.

Lemma swap_frame0 pre l j :
  0 <= j ->
  swap (pre ++ l) (Z.of_nat (length pre)) (Z.of_nat (length pre) + j)
  = a' <- swap l 0 j ;; Done (pre ++ a').
Proof.
  intros Hj. rewrite <- (swap_frame pre l 0 j) by lia. f_equal. lia.
Qed.

Lemma shift3_frame0 pre l j k :
  0 <= j -> 0 <= k ->
  shift3 (pre ++ l) (Z.of_nat (length pre)) (Z.of_nat (length pre) + j)
    (Z.of_nat (length pre) + k)
  = a' <- shift3 l 0 j k ;; Done (pre ++ a').
Proof.
  intros Hj Hk. unfold shift3. rewrite rd_frame0, rd_frame by assumption.
  destruct (rd l 0) as [tmp| |]; cbn [bind]; [|reflexivity..].
  destruct (rd l j) as [x| |]; cbn [bind]; [|reflexivity..].
  rewrite wr_frame0.
  destruct (wr l 0 x) as [a1| |]; cbn [bind]; [|reflexivity..].
  rewrite rd_frame by assumption.
  destruct (rd a1 k) as [y| |]; cbn [bind]; [|reflexivity..].
  rewrite wr_frame by assumption.
  destruct (wr a1 j y) as [a2| |]; cbn [bind]; [|reflexivity..].
  apply wr_frame; assumption.
Qed.

(** [memmove] of a block that lies between a prefix and a suffix. *)
Lemma memmove_up pre x lo y rest :
  memmove (pre ++ (x :: lo) ++ y :: rest) (Z.of_nat (length pre) + 1)
    (Z.of_nat (length pre)) (Z.of_nat (length (x :: lo)))
  = Done (pre ++ x :: (x :: lo) ++ rest).
Proof.
  unfold memmove. repeat (rewrite length_app; cbn [length]).
  repeat match goal with
         | |- context [?p <? ?q] => destruct (Z.ltb_spec p q); [lia|]
         end.
  cbn [orb]. f_equal.
  rewrite (skipn_app_at (Z.to_nat (Z.of_nat (length pre)))) by lia.
  rewrite (firstn_app_at (Z.to_nat (Z.of_nat (S (length lo))))
             (x :: lo) (y :: rest)) by (cbn [length]; lia).
  replace (pre ++ (x :: lo) ++ y :: rest)
    with ((pre ++ [x]) ++ lo ++ y :: rest)
    by (rewrite <- app_assoc; reflexivity).
  rewrite firstn_app_at by (rewrite length_app; cbn [length]; lia).
  replace ((pre ++ [x]) ++ lo ++ y :: rest)
    with ((pre ++ x :: lo ++ [y]) ++ rest)
    by (rewrite <- !app_assoc; cbn [app]; rewrite <- app_assoc; reflexivity).
  rewrite skipn_app_at
    by (rewrite !length_app; cbn [length]; rewrite length_app; cbn [length]; lia).
  rewrite <- app_assoc. reflexivity.
Qed.

Lemma memmove_down pre m lo y rest :
  memmove (pre ++ m :: (lo ++ [y]) ++ rest) (Z.of_nat (length pre))
    (Z.of_nat (length pre) + 1) (Z.of_nat (length (lo ++ [y])))
  = Done (pre ++ (lo ++ [y]) ++ y :: rest).
Proof.
  unfold memmove. repeat (rewrite length_app; cbn [length]).
  repeat match goal with
         | |- context [?p <? ?q] => destruct (Z.ltb_spec p q); [lia|]
         end.
  cbn [orb]. f_equal.
  rewrite firstn_app_at by lia. f_equal.
  replace (pre ++ m :: (lo ++ [y]) ++ rest)
    with ((pre ++ [m]) ++ (lo ++ [y]) ++ rest)
    by (rewrite <- app_assoc; reflexivity).
  rewrite (skipn_app_at (Z.to_nat (Z.of_nat (length pre) + 1)))
    by (rewrite length_app; cbn [length]; lia).
  rewrite firstn_app_at by (rewrite length_app; cbn [length]; lia).
  f_equal.
  replace ((pre ++ [m]) ++ (lo ++ [y]) ++ rest)
    with ((pre ++ m :: lo) ++ y :: rest)
    by (rewrite <- !app_assoc; reflexivity).
  rewrite skipn_app_at by (rewrite length_app; cbn [length]; lia).
  reflexivity.
Qed.

End MemFacts.

(** One swap or rotation of a small block: move the operation below the
    prefix, then run it on the explicit elements. *)
Ltac run_block_step :=
  first [ rewrite shift3_frame0 by lia
        | rewrite swap_frame0 by lia
        | rewrite swap_frame by lia ];
  match goal with
  | |- context [swap (?x :: ?l) ?i ?j] =>
      let r := eval lazy in (swap (x :: l) i j) in
      change (swap (x :: l) i j) with r
  | |- context [shift3 (?x :: ?l) ?i ?j ?k] =>
      let r := eval lazy in (shift3 (x :: l) i j k) in
      change (shift3 (x :: l) i j k) with r
  end;
  cbn [bind].

(** ** ShuffleSortedArray computes the layout *)

Section ShuffleFacts.
Implicit Types a blk pre post lo hi : list Z.
Implicit Types stk : list frame.

Lemma ShuffleSortedArray_loop_step fuel a first count stk :
  1 < count ->
  ShuffleSortedArray_loop (S fuel) a first count stk
  = '(a, first, count, stk) <- ShuffleSortedArray_switch a first count stk ;;
    ShuffleSortedArray_loop fuel a first count stk.
Proof.
  intros Hc. cbn [ShuffleSortedArray_loop].
  destruct (Z.ltb_spec 1 count); [|lia].
  destruct (Z.leb_spec count 1); [lia|]. reflexivity.
Qed.

Lemma ShuffleSortedArray_loop_pop fuel a first count f c stk :
  count <= 1 -> 1 < c ->
  ShuffleSortedArray_loop fuel a first count (Frame f c :: stk)
  = ShuffleSortedArray_loop fuel a f c stk.
Proof.
  intros Hc Hc'. destruct fuel as [|fuel]; cbn [ShuffleSortedArray_loop].
  - destruct (Z.ltb_spec 1 c); [|lia]. rewrite orb_true_r. reflexivity.
  - destruct (Z.ltb_spec 1 count); [lia|].
    destruct (Z.ltb_spec 1 c); [|lia].
    destruct (Z.leb_spec count 1); [|lia].
    destruct (Z.leb_spec c 1); [lia|]. reflexivity.
Qed.

Lemma ShuffleSortedArray_loop_exit fuel a first count :
  count <= 1 -> ShuffleSortedArray_loop fuel a first count [] = Done a.
Proof.
  intros Hc. destruct fuel; cbn [ShuffleSortedArray_loop];
    destruct (Z.ltb_spec 1 count); try lia; reflexivity.
Qed.

Lemma ShuffleSortedArray_switch_default a first count stk :
  8 < count ->
  ShuffleSortedArray_switch a first count stk
  = ShuffleSortedArray_default a first count stk.
Proof.
  intros Hc. destruct count as [|p|p]; try lia.
  do 4 (destruct p as [p|p|]; try lia; try reflexivity).
Qed.

Lemma push_ok stk f :
  Z.of_nat (length stk) < MAX_SHUFFLE_COUNT_LOG2 -> push stk f = Done (f :: stk).
Proof.
  intros H. unfold push.
  destruct (Z.ltb_spec (Z.of_nat (length stk)) MAX_SHUFFLE_COUNT_LOG2); [reflexivity|lia].
Qed.

Lemma ShuffleSortedArray_default_ok pre lo m rest count stk :
  (1 <= length lo)%nat ->
  count ÷ 2 = Z.of_nat (length lo) ->
  Z.of_nat (length pre) + count <= INT_MAX ->
  Z.of_nat (length stk) < MAX_SHUFFLE_COUNT_LOG2 ->
  ShuffleSortedArray_default (pre ++ lo ++ m :: rest)
    (Z.of_nat (length pre)) count stk
  = Done (pre ++ m :: lo ++ rest, Z.of_nat (length pre) + 1, count ÷ 2,
          Frame (Z.of_nat (length pre) + 1 + count ÷ 2) ((count - 1) ÷ 2) :: stk).
Proof.
  intros Hlo Hhalf Hint Hstk. unfold ShuffleSortedArray_default. unwrap.
  rewrite Hhalf, rd_middle. cbn [bind].
  destruct lo as [|x lo]; [cbn [length] in Hlo; lia|].
  rewrite memmove_up. cbn [bind].
  rewrite wr_frame0. cbn. rewrite push_ok by assumption. reflexivity.
Qed.

Lemma stack_room_push n stk :
  (1 <= n)%nat -> stack_room n stk ->
  Z.of_nat (length stk) < MAX_SHUFFLE_COUNT_LOG2.
Proof.
  unfold stack_room. intros Hn H.
  destruct (Z.lt_ge_cases (Z.of_nat (length stk)) MAX_SHUFFLE_COUNT_LOG2)
    as [Hlt|Hge]; [exact Hlt|exfalso].
  assert (2 ^ MAX_SHUFFLE_COUNT_LOG2 <= 2 ^ Z.of_nat (length stk))
    by (apply Z.pow_le_mono_r; unfold MAX_SHUFFLE_COUNT_LOG2 in *; lia).
  nia.
Qed.

Lemma stack_room_lower n h f stk :
  (2 * h <= n)%nat -> stack_room n stk -> stack_room h (f :: stk).
Proof.
  unfold stack_room. intros Hh H. cbn [length].
  rewrite Nat2Z.inj_succ, Z.pow_succ_r by lia.
  assert (0 < 2 ^ Z.of_nat (length stk)) by (apply Z.pow_pos_nonneg; lia).
  nia.
Qed.

Lemma stack_room_upper n h stk :
  (h <= n)%nat -> stack_room n stk -> stack_room h stk.
Proof.
  unfold stack_room. intros Hh H.
  assert (0 < 2 ^ Z.of_nat (length stk)) by (apply Z.pow_pos_nonneg; lia).
  nia.
Qed.

(** Running the loop on one block: after at most as many rounds as the
    block has elements the block holds its layout, the count is zero and
    the stack is as it was. *)
Lemma ShuffleSortedArray_block blk :
  (2 <= length blk)%nat ->
  forall pre post stk,
    stack_room (length blk) stk ->
    Z.of_nat (length pre + length blk) <= INT_MAX ->
    exists k first',
      (k <= length blk)%nat /\
      forall fuel,
        ShuffleSortedArray_loop (k + fuel) (pre ++ blk ++ post)
          (Z.of_nat (length pre)) (Z.of_nat (length blk)) stk
        = ShuffleSortedArray_loop fuel (pre ++ layout blk ++ post) first' 0 stk.
Proof.
  induction blk as [|lo m hi Hlo IHlo IHhi] using median_ind;
    [cbn [length]; lia|].
  intros Hlen pre post stk Hroom Hint.
  destruct (le_lt_dec (length (lo ++ m :: hi)) 8) as [Hsmall|Hbig].
  - clear IHlo IHhi.
    destruct lo as [|a0 [|a1 [|a2 [|a3 [|a4 lo]]]]];
      destruct hi as [|b0 [|b1 [|b2 [|b3 hi]]]];
      cbn [length app] in Hlo, Hsmall, Hlen, Hint; try lia;
      exists 1%nat, (Z.of_nat (length pre)); (split; [cbn [length app]; lia|]);
      intros fuel; cbn [Nat.add app length];
      rewrite ShuffleSortedArray_loop_step by lia;
      cbn [Z.of_nat Pos.of_succ_nat Pos.succ];
      unfold ShuffleSortedArray_switch; unwrap;
      repeat run_block_step; reflexivity.
  - rewrite length_app in Hlo, Hbig. cbn [length] in Hlo, Hbig.
    assert (Hn : length (lo ++ m :: hi) = S (length lo + length hi))
      by (rewrite length_app; cbn [length]; lia).
    rewrite Hn in *.
    set (F := Z.of_nat (length pre)).
    set (n := Z.of_nat (S (length lo + length hi))).
    assert (Hhalf : n ÷ 2 = Z.of_nat (length lo)) by (subst n; lia).
    assert (Hup : (n - 1) ÷ 2 = Z.of_nat (length hi)) by (subst n; lia).
    destruct (IHlo ltac:(lia) (pre ++ [m]) (hi ++ post)
                (Frame (F + 1 + n ÷ 2) ((n - 1) ÷ 2) :: stk))
      as (k1 & f1 & Hk1 & Hrun1).
    { eapply stack_room_lower; [|exact Hroom]. lia. }
    { rewrite length_app. cbn [length]. lia. }
    destruct (IHhi ltac:(lia) (pre ++ m :: layout lo) post stk)
      as (k2 & f2 & Hk2 & Hrun2).
    { eapply stack_room_upper; [|exact Hroom]. lia. }
    { rewrite length_app. cbn [length]. rewrite length_layout. lia. }
    exists (S (k1 + k2)), f2. split; [lia|]. intros fuel.
    replace (S (k1 + k2) + fuel)%nat with (S (k1 + (k2 + fuel))) by lia.
    rewrite ShuffleSortedArray_loop_step by lia.
    rewrite ShuffleSortedArray_switch_default by lia.
    rewrite <- app_assoc. cbn [app].
    rewrite ShuffleSortedArray_default_ok;
      [|lia|exact Hhalf|subst F n; lia
       |eapply stack_room_push; [|exact Hroom]; lia].
    cbn [bind].
    specialize (Hrun1 (k2 + fuel)%nat). specialize (Hrun2 fuel).
    assert (E1 : Z.of_nat (length (pre ++ [m])) = F + 1)
      by (rewrite length_app; cbn [length]; lia).
    assert (E2 : Z.of_nat (length (pre ++ m :: layout lo)) = F + 1 + n ÷ 2)
      by (rewrite length_app; cbn [length]; rewrite length_layout; lia).
    rewrite E1, <- Hhalf, <- !app_assoc in Hrun1. cbn [app] in Hrun1.
    rewrite E2, <- Hup, <- !app_assoc in Hrun2. cbn [app] in Hrun2.
    etransitivity; [exact Hrun1|].
    rewrite ShuffleSortedArray_loop_pop by lia.
    etransitivity; [exact Hrun2|].
    rewrite layout_node by (rewrite length_app; cbn [length]; lia).
    cbn [app]. rewrite <- !app_assoc. reflexivity.
Qed.

(** A region of at most [INT_MAX] elements, shuffled from an empty stack. *)
Lemma ShuffleSortedArray_region blk post :
  Z.of_nat (length blk) <= INT_MAX ->
  ShuffleSortedArray (blk ++ post) (Z.of_nat (length blk))
  = Done (layout blk ++ post).
Proof.
  intros Hmax. unfold ShuffleSortedArray.
  destruct (le_lt_dec (length blk) 1) as [Hle|Hgt].
  - rewrite ShuffleSortedArray_loop_exit by lia.
    destruct blk as [|x [|y blk]]; [reflexivity..|cbn [length] in Hle; lia].
  - destruct (ShuffleSortedArray_block blk ltac:(lia) [] post [])
      as (k & f & Hk & Hrun).
    { unfold stack_room, INT_MAX, MAX_SHUFFLE_COUNT_LOG2 in *.
      cbn [length Z.of_nat]. change (2 ^ 0) with 1.
      change (2 ^ 64) with 18446744073709551616. lia. }
    { cbn [length Nat.add]. exact Hmax. }
    rewrite Nat2Z.id.
    replace (length blk) with (k + (length blk - k))%nat at 1 by lia.
    cbn [app length Z.of_nat] in Hrun. rewrite Hrun.
    apply ShuffleSortedArray_loop_exit. lia.
Qed.


End ShuffleFacts.

(** ** SortShuffledArray undoes the layout *)

Section SortFacts.
Implicit Types a blk pre post lo hi : list Z.
Implicit Types stk : list frame.

Lemma SortShuffledArray_loop_step fuel a first count stk :
  1 < count ->
  SortShuffledArray_loop (S fuel) a first count stk
  = '(a, first, count, stk) <- SortShuffledArray_switch a first count stk ;;
    SortShuffledArray_loop fuel a first count stk.
Proof.
  intros Hc. cbn [SortShuffledArray_loop].
  destruct (Z.ltb_spec 1 count); [|lia].
  destruct (Z.leb_spec count 1); [lia|]. reflexivity.
Qed.

Lemma SortShuffledArray_loop_pop fuel a first count f c stk :
  count <= 1 -> 1 < c ->
  SortShuffledArray_loop fuel a first count (Frame f c :: stk)
  = SortShuffledArray_loop fuel a f c stk.
Proof.
  intros Hc Hc'. destruct fuel as [|fuel]; cbn [SortShuffledArray_loop].
  - destruct (Z.ltb_spec 1 c); [|lia]. rewrite orb_true_r. reflexivity.
  - destruct (Z.ltb_spec 1 count); [lia|].
    destruct (Z.ltb_spec 1 c); [|lia].
    destruct (Z.leb_spec count 1); [|lia].
    destruct (Z.leb_spec c 1); [lia|]. reflexivity.
Qed.

Lemma SortShuffledArray_loop_exit fuel a first count :
  count <= 1 -> SortShuffledArray_loop fuel a first count [] = Done a.
Proof.
  intros Hc. destruct fuel; cbn [SortShuffledArray_loop];
    destruct (Z.ltb_spec 1 count); try lia; reflexivity.
Qed.

Lemma SortShuffledArray_switch_default a first count stk :
  7 < count ->
  SortShuffledArray_switch a first count stk
  = SortShuffledArray_default a first count stk.
Proof.
  intros Hc. destruct count as [|p|p]; try lia.
  do 4 (destruct p as [p|p|]; try lia; try reflexivity).
Qed.

Lemma SortShuffledArray_default_ok pre m lo rest count stk :
  (1 <= length lo)%nat ->
  count ÷ 2 = Z.of_nat (length lo) ->
  Z.of_nat (length pre) + count <= INT_MAX ->
  Z.of_nat (length stk) < MAX_SHUFFLE_COUNT_LOG2 ->
  SortShuffledArray_default (pre ++ m :: lo ++ rest)
    (Z.of_nat (length pre)) count stk
  = Done (pre ++ lo ++ m :: rest, Z.of_nat (length pre), count ÷ 2,
          Frame (Z.of_nat (length pre) + 1 + count ÷ 2) ((count - 1) ÷ 2) :: stk).
Proof.
  intros Hlo Hhalf Hint Hstk. unfold SortShuffledArray_default. unwrap.
  rewrite rd_frame0. cbn [rd Z.ltb Z.compare Z.to_nat nth_error bind].
  destruct (exists_last (l := lo)) as (lo0 & y & ->);
    [intros ->; cbn [length] in Hlo; lia|].
  rewrite Hhalf, memmove_down. cbn [bind].
  replace (pre ++ (lo0 ++ [y]) ++ y :: rest)
    with ((pre ++ lo0 ++ [y]) ++ y :: rest)
    by (rewrite <- !app_assoc; reflexivity).
  rewrite wr_here by (rewrite !length_app; cbn [length]; lia).
  cbn [bind]. rewrite push_ok by assumption. cbn [bind].
  rewrite <- !app_assoc. reflexivity.
Qed.

Lemma SortShuffledArray_block blk :
  (2 <= length blk)%nat ->
  forall pre post stk,
    stack_room (length blk) stk ->
    Z.of_nat (length pre + length blk) <= INT_MAX ->
    exists k first',
      (k <= length blk)%nat /\
      forall fuel,
        SortShuffledArray_loop (k + fuel) (pre ++ blk ++ post)
          (Z.of_nat (length pre)) (Z.of_nat (length blk)) stk
        = SortShuffledArray_loop fuel (pre ++ unlayout blk ++ post) first' 0 stk.
Proof.
  induction blk as [|m lo hi Hlo IHlo IHhi] using head_ind;
    [cbn [length]; lia|].
  intros Hlen pre post stk Hroom Hint.
  destruct (le_lt_dec (length (m :: lo ++ hi)) 7) as [Hsmall|Hbig].
  - clear IHlo IHhi.
    destruct lo as [|a0 [|a1 [|a2 [|a3 lo]]]];
      destruct hi as [|b0 [|b1 [|b2 [|b3 hi]]]];
      cbn [length app] in Hlo, Hsmall, Hlen, Hint; try lia;
      exists 1%nat, (Z.of_nat (length pre)); (split; [cbn [length app]; lia|]);
      intros fuel; cbn [Nat.add app length];
      rewrite SortShuffledArray_loop_step by lia;
      cbn [Z.of_nat Pos.of_succ_nat Pos.succ];
      unfold SortShuffledArray_switch; unwrap;
      repeat run_block_step; reflexivity.
  - cbn [length] in Hlo, Hbig. rewrite length_app in Hlo, Hbig.
    assert (Hn : length (m :: lo ++ hi) = S (length lo + length hi))
      by (cbn [length]; rewrite length_app; lia).
    rewrite Hn in *.
    set (F := Z.of_nat (length pre)).
    set (n := Z.of_nat (S (length lo + length hi))).
    assert (Hhalf : n ÷ 2 = Z.of_nat (length lo)) by (subst n; lia).
    assert (Hup : (n - 1) ÷ 2 = Z.of_nat (length hi)) by (subst n; lia).
    destruct (IHlo ltac:(lia) pre (m :: hi ++ post)
                (Frame (F + 1 + n ÷ 2) ((n - 1) ÷ 2) :: stk))
      as (k1 & f1 & Hk1 & Hrun1).
    { eapply stack_room_lower; [|exact Hroom]. lia. }
    { lia. }
    destruct (IHhi ltac:(lia) (pre ++ unlayout lo ++ [m]) post stk)
      as (k2 & f2 & Hk2 & Hrun2).
    { eapply stack_room_upper; [|exact Hroom]. lia. }
    { rewrite !length_app. cbn [length]. rewrite length_unlayout. lia. }
    exists (S (k1 + k2)), f2. split; [lia|]. intros fuel.
    replace (S (k1 + k2) + fuel)%nat with (S (k1 + (k2 + fuel))) by lia.
    rewrite SortShuffledArray_loop_step by lia.
    rewrite SortShuffledArray_switch_default by lia.
    cbn [app]. rewrite <- app_assoc.
    rewrite SortShuffledArray_default_ok;
      [|lia|exact Hhalf|subst F n; lia
       |eapply stack_room_push; [|exact Hroom]; lia].
    cbn [bind].
    specialize (Hrun1 (k2 + fuel)%nat). specialize (Hrun2 fuel).
    assert (E2 : Z.of_nat (length (pre ++ unlayout lo ++ [m])) = F + 1 + n ÷ 2)
      by (rewrite !length_app; cbn [length]; rewrite length_unlayout; lia).
    rewrite <- Hhalf in Hrun1.
    rewrite E2, <- Hup, <- !app_assoc in Hrun2. cbn [app] in Hrun2.
    etransitivity; [exact Hrun1|].
    rewrite SortShuffledArray_loop_pop by lia.
    etransitivity; [exact Hrun2|].
    rewrite unlayout_node by (cbn [length]; rewrite length_app; lia).
    rewrite <- !app_assoc. reflexivity.
Qed.

Lemma SortShuffledArray_region blk post :
  Z.of_nat (length blk) <= INT_MAX ->
  SortShuffledArray (blk ++ post) (Z.of_nat (length blk))
  = Done (unlayout blk ++ post).
Proof.
  intros Hmax. unfold SortShuffledArray.
  destruct (le_lt_dec (length blk) 1) as [Hle|Hgt].
  - rewrite SortShuffledArray_loop_exit by lia.
    destruct blk as [|x [|y blk]]; [reflexivity..|cbn [length] in Hle; lia].
  - destruct (SortShuffledArray_block blk ltac:(lia) [] post [])
      as (k & f & Hk & Hrun).
    { unfold stack_room, INT_MAX, MAX_SHUFFLE_COUNT_LOG2 in *.
      cbn [length Z.of_nat]. change (2 ^ 0) with 1.
      change (2 ^ 64) with 18446744073709551616. lia. }
    { cbn [length Nat.add]. exact Hmax. }
    rewrite Nat2Z.id.
    replace (length blk) with (k + (length blk - k))%nat at 1 by lia.
    cbn [app length Z.of_nat] in Hrun. rewrite Hrun.
    apply SortShuffledArray_loop_exit. lia.
Qed.

End SortFacts.

(** ** ShuffledBinarySearch on any array: where it reads *)

Section SearchReads.
Implicit Types a : list Z.

Lemma rd_in_range a i : 0 <= i < Z.of_nat (length a) -> exists v, rd a i = Done v.
Proof.
  intros Hi. unfold rd. destruct (Z.ltb_spec i 0); [lia|].
  destruct (nth_error a (Z.to_nat i)) as [v|] eqn:E; [eauto|].
  apply nth_error_None in E. lia.
Qed.

(** The loop invariant: with [count] elements left from [index] on, every
    later read lies in [index, index + count), above all earlier ones; the
    loop faults only outside the array and stops within [count] rounds. *)
Lemma ShuffledBinarySearch_loop_inv fuel : forall value a index count,
  0 <= count -> 0 <= index -> index + count <= INT_MAX ->
  let run := ShuffledBinarySearch_loop fuel value a index count in
  StronglySorted Z.lt (fst run)
  /\ Forall (fun i => index <= i < index + count) (fst run)
  /\ (index + count <= Z.of_nat (length a) -> snd run <> Fault)
  /\ (count <= Z.of_nat fuel -> snd run <> Diverge).
Proof.
  induction fuel as [|fuel IH]; intros value a index count Hc Hi Hint;
    cbn [ShuffledBinarySearch_loop]; destruct (Z.eqb_spec count 0) as [->|Hnz].
  1-3: cbn [fst snd]; repeat split; try constructor; try discriminate; lia.
  destruct (rd a index) as [read| |] eqn:Hrd.
  - destruct (Z.eqb_spec value read) as [->|Hne].
    + cbn [fst snd]. repeat split; try discriminate.
      * repeat constructor.
      * constructor; [lia|constructor].
    + unwrap.
      set (next := if read <? value
                   then (index + (count ÷ 2 + 1), (count - 1) ÷ 2)
                   else (index + 1, count ÷ 2)).
      assert (Hnext : index < fst next /\ 0 <= snd next < count
                      /\ fst next + snd next <= index + count)
        by (subst next; destruct (read <? value); cbn [fst snd]; lia).
      destruct next as [index' count']. cbn [fst snd] in Hnext.
      destruct Hnext as (Hlt & Hcnt & Hsum).
      specialize (IH value a index' count' ltac:(lia) ltac:(lia) ltac:(lia)).
      cbv zeta in IH.
      destruct (ShuffledBinarySearch_loop fuel value a index' count')
        as [reads r].
      cbn [fst snd] in *. destruct IH as (Hs & Hb & Hf & Hd).
      repeat split.
      * constructor; [exact Hs|].
        eapply Forall_impl; [|exact Hb]. cbv beta. intros; lia.
      * constructor; [lia|].
        eapply Forall_impl; [|exact Hb]. cbv beta. intros; lia.
      * intros Hlen. apply Hf; lia.
      * intros Hfuel. apply Hd. lia.
  - cbn [fst snd]. repeat split; try discriminate.
    + repeat constructor.
    + constructor; [lia|constructor].
    + intros Hlen. destruct (rd_in_range a index) as [v Hv]; [lia|].
      congruence.
  - cbn [fst snd]. unfold rd in Hrd.
    destruct (index <? 0); [discriminate|].
    destruct (nth_error a (Z.to_nat index)); discriminate.
Qed.

End SearchReads.

(** ** Sorted lists cut in two *)

Section SortedFacts.
Implicit Types s lo hi : list Z.

Lemma ascending_sorted s : ascending s = true -> StronglySorted Z.le s.
Proof.
  intros H. apply Sorted_StronglySorted; [intros x y z; apply Z.le_trans|].
  induction s as [|x [|y t] IH]; [constructor|repeat constructor|].
  cbn [ascending] in H. apply andb_true_iff in H. destruct H as [Hxy Ht].
  constructor; [apply IH; exact Ht|constructor; lia].
Qed.

Lemma strictly_ascending_sorted s :
  strictly_ascending s = true -> StronglySorted Z.lt s.
Proof.
  intros H. apply Sorted_StronglySorted; [intros x y z; apply Z.lt_trans|].
  induction s as [|x [|y t] IH]; [constructor|repeat constructor|].
  cbn [strictly_ascending] in H. apply andb_true_iff in H.
  destruct H as [Hxy Ht].
  constructor; [apply IH; exact Ht|constructor; lia].
Qed.

Lemma strictly_ascending_ascending s :
  strictly_ascending s = true -> ascending s = true.
Proof.
  induction s as [|x [|y t] IH]; try reflexivity.
  cbn [strictly_ascending ascending]. rewrite !andb_true_iff.
  intros [Hxy Ht]. split; [lia|apply IH; exact Ht].
Qed.

Lemma StronglySorted_app_inv (R : Z -> Z -> Prop) lo m hi :
  StronglySorted R (lo ++ m :: hi) ->
  StronglySorted R lo /\ StronglySorted R hi
  /\ Forall (fun x => R x m) lo /\ Forall (R m) hi.
Proof.
  induction lo as [|x lo IH]; cbn [app]; intros H.
  - apply StronglySorted_inv in H. destruct H as [Hhi Hm].
    repeat split; try constructor; assumption.
  - apply StronglySorted_inv in H. destruct H as [Hs Hx].
    destruct (IH Hs) as (Hlo & Hhi & Hlm & Hmh).
    apply Forall_app in Hx. destruct Hx as [Hxlo Hxm].
    repeat split; try assumption.
    + constructor; assumption.
    + constructor; [|assumption]. inversion Hxm; assumption.
Qed.

Lemma StronglySorted_lt_nth_inj s : StronglySorted Z.lt s ->
  forall i j x, nth_error s i = Some x -> nth_error s j = Some x -> i = j.
Proof.
  induction 1 as [|y s Hs IH Hy]; intros i j x Hi Hj.
  - destruct i; discriminate.
  - rewrite Forall_forall in Hy.
    destruct i as [|i], j as [|j]; cbn [nth_error] in Hi, Hj.
    + reflexivity.
    + injection Hi as ->. apply nth_error_In, Hy in Hj. lia.
    + injection Hj as ->. apply nth_error_In, Hy in Hi. lia.
    + f_equal. eapply IH; eassumption.
Qed.

End SortedFacts.

(** ** ShuffledBinarySearch on a layout *)

Section SearchLayout.
Implicit Types s lo hi pre post : list Z.

Lemma ShuffledBinarySearch_loop_result_step fuel value a index count read :
  count <> 0 -> rd a index = Done read -> value <> read ->
  snd (ShuffledBinarySearch_loop (S fuel) value a index count)
  = if read <? value
    then snd (ShuffledBinarySearch_loop fuel value a
                (index ⊕ (count ÷ 2 ⊕ 1)) ((count ⊖ 1) ÷ 2))
    else snd (ShuffledBinarySearch_loop fuel value a (index ⊕ 1) (count ÷ 2)).
Proof.
  intros Hc Hrd Hne. cbn [ShuffledBinarySearch_loop].
  destruct (Z.eqb_spec count 0); [contradiction|]. rewrite Hrd.
  destruct (Z.eqb_spec value read); [contradiction|].
  destruct (read <? value);
    match goal with
    | |- context [ShuffledBinarySearch_loop ?f ?v ?a ?i ?c] =>
        destruct (ShuffledBinarySearch_loop f v a i c)
    end; reflexivity.
Qed.

(** What the search answers on the layout of an ascending list, wherever
    the block lies in the array. *)
Lemma ShuffledBinarySearch_loop_layout s :
  StronglySorted Z.le s ->
  forall pre post value fuel,
    (length s <= fuel)%nat ->
    Z.of_nat (length pre + length s) <= INT_MAX ->
    let a := pre ++ layout s ++ post in
    let r := snd (ShuffledBinarySearch_loop fuel value a
                    (Z.of_nat (length pre)) (Z.of_nat (length s))) in
    (In value s ->
     exists p, r = Done p
               /\ Z.of_nat (length pre) <= p < Z.of_nat (length pre + length s)
               /\ rd a p = Done value)
    /\ (~ In value s -> r = Done (-1)).
Proof.
  induction s as [|lo m hi Hlo IHlo IHhi] using median_ind;
    intros Hsorted pre post value fuel Hfuel Hint; cbv zeta.
  - split; [intros []|]. intros _. destruct fuel; reflexivity.
  - apply StronglySorted_app_inv in Hsorted.
    destruct Hsorted as (Hslo & Hshi & Hlom & Hmhi).
    rewrite Forall_forall in Hlom, Hmhi.
    rewrite layout_node by exact Hlo.
    rewrite length_app in Hlo, Hfuel, Hint |- *.
    cbn [length] in Hlo, Hfuel, Hint |- *.
    destruct fuel as [|fuel]; [lia|].
    set (F := Z.of_nat (length pre)).
    set (n := Z.of_nat (length lo + S (length hi))).
    set (a := pre ++ (m :: layout lo ++ layout hi) ++ post).
    assert (Hrd : rd a F = Done m)
      by (subst a F; rewrite rd_frame0; reflexivity).
    destruct (Z.eq_dec value m) as [->|Hne].
    + split; [|intros Hnot; exfalso; apply Hnot, in_elt].
      intros _. exists F. repeat split; [|lia|lia|exact Hrd].
      cbn [ShuffledBinarySearch_loop].
      destruct (Z.eqb_spec n 0); [lia|]. rewrite Hrd, Z.eqb_refl.
      reflexivity.
    + rewrite (ShuffledBinarySearch_loop_result_step _ _ _ _ _ m)
        by (assumption || lia).
      subst F n. unwrap.
      set (F := Z.of_nat (length pre)).
      set (n := Z.of_nat (length lo + S (length hi))).
      destruct (Z.ltb_spec m value) as [Hgt|Hle].
      * specialize (IHhi Hshi (pre ++ m :: layout lo) post value fuel
                      ltac:(lia)
                      ltac:(rewrite length_app; cbn [length];
                            rewrite length_layout; lia)).
        cbv zeta in IHhi.
        replace ((pre ++ m :: layout lo) ++ layout hi ++ post)
          with a in IHhi by (subst a; norm_app; reflexivity).
        replace (Z.of_nat (length (pre ++ m :: layout lo)))
          with (F + (n ÷ 2 + 1)) in IHhi
          by (rewrite length_app; cbn [length]; rewrite length_layout;
              subst F n; lia).
        replace (Z.of_nat (length hi)) with ((n - 1) ÷ 2) in IHhi
          by (subst n; lia).
        destruct IHhi as [IHin IHout]. split.
        -- intros Hin. apply in_app_or in Hin.
           destruct Hin as [Hin|[Heq|Hin]];
             [apply Hlom in Hin; lia|congruence|].
           destruct (IHin Hin) as (p & Hp & Hrange & Hval).
           exists p. repeat split; [exact Hp| | |exact Hval];
             rewrite length_app in Hrange; cbn [length] in Hrange;
             rewrite length_layout in Hrange; lia.
        -- intros Hnot. apply IHout. intros Hin. apply Hnot.
           apply in_or_app. right. right. exact Hin.
      * specialize (IHlo Hslo (pre ++ [m]) (layout hi ++ post) value fuel
                      ltac:(lia)
                      ltac:(rewrite length_app; cbn [length]; lia)).
        cbv zeta in IHlo.
        replace ((pre ++ [m]) ++ layout lo ++ layout hi ++ post)
          with a in IHlo by (subst a; norm_app; reflexivity).
        replace (Z.of_nat (length (pre ++ [m]))) with (F + 1) in IHlo
          by (rewrite length_app; cbn [length]; subst F; lia).
        replace (Z.of_nat (length lo)) with (n ÷ 2) in IHlo
          by (subst n; lia).
        destruct IHlo as [IHin IHout]. split.
        -- intros Hin. apply in_app_or in Hin.
           destruct Hin as [Hin|[Heq|Hin]];
             [|congruence|apply Hmhi in Hin; lia].
           destruct (IHin Hin) as (p & Hp & Hrange & Hval).
           exists p. repeat split; [exact Hp| | |exact Hval];
             rewrite length_app in Hrange; cbn [length] in Hrange; lia.
        -- intros Hnot. apply IHout. intros Hin. apply Hnot.
           apply in_or_app. left. exact Hin.
Qed.

(** The same for the function itself, on a region at the front. *)
Lemma ShuffledBinarySearch_layout s post value :
  StronglySorted Z.le s ->
  Z.of_nat (length s) <= INT_MAX ->
  let a := layout s ++ post in
  let r := ShuffledBinarySearch value a (Z.of_nat (length s)) in
  (In value s ->
   exists p, r = Done p /\ 0 <= p < Z.of_nat (length s) /\ rd a p = Done value)
  /\ (~ In value s -> r = Done (-1)).
Proof.
  intros Hs Hmax. unfold ShuffledBinarySearch. rewrite Nat2Z.id.
  exact (ShuffledBinarySearch_loop_layout s Hs [] post value (length s)
           (Nat.le_refl _) Hmax).
Qed.

End SearchLayout.

(** ** DeshuffleIndex follows the layout *)

Section DeshuffleFacts.
Context {A : Type}.
Implicit Types s lo hi : list A.

(** From shuffled position [p] of a block whose sorted order starts at
    rank [base], the loop ends on rank [base + j], where [j] is the place
    in the sorted order of the element the layout holds at [p]. *)
Lemma DeshuffleIndex_loop_layout s :
  forall p base fuel,
    (p < length s)%nat -> (p <= fuel)%nat ->
    0 <= base -> base + Z.of_nat (length s) <= INT_MAX ->
    exists j,
      (j < length s)%nat
      /\ DeshuffleIndex_loop fuel (Z.of_nat p) (Z.of_nat (length s))
           (Z.of_nat (length s) ÷ 2) (base + Z.of_nat (length s) ÷ 2)
         = Done (base + Z.of_nat j)
      /\ nth_error s j = nth_error (layout s) p.
Proof.
  induction s as [|lo m hi Hlo IHlo IHhi] using median_ind;
    intros p base fuel Hp Hfuel Hbase Hint; [cbn [length] in Hp; lia|].
  rewrite layout_node by exact Hlo.
  rewrite length_app in Hlo, Hp, Hint |- *. cbn [length] in Hlo, Hp, Hint |- *.
  set (n := Z.of_nat (length lo + S (length hi))) in *.
  assert (Hhalf : n ÷ 2 = Z.of_nat (length lo)) by (subst n; lia).
  assert (Hup : (n - 1) ÷ 2 = Z.of_nat (length hi)) by (subst n; lia).
  destruct p as [|p].
  - exists (length lo). split; [lia|]. split.
    + rewrite Hhalf. destruct fuel; reflexivity.
    + rewrite nth_error_app_at by reflexivity. reflexivity.
  - destruct fuel as [|fuel]; [lia|].
    cbn [DeshuffleIndex_loop].
    destruct (Z.eqb_spec (Z.of_nat (S p)) 0); [lia|].
    rewrite Hhalf.
    destruct (Z.ltb_spec (Z.of_nat (length lo)) (Z.of_nat (S p))) as [Hhi|Hlow].
    + destruct (IHhi (p - length lo)%nat (base + Z.of_nat (length lo) + 1) fuel)
        as (j & Hj & Hrun & Hnth); [lia|lia|lia|lia|].
      exists (length lo + S j)%nat. split; [lia|]. split.
      * assert (Hn : 1 <= n <= INT_MAX) by lia.
        unwrap. rewrite Hup. unwrap.
        replace (Z.of_nat (S p) - (Z.of_nat (length lo) + 1))
          with (Z.of_nat (p - length lo)) by lia.
        etransitivity; [exact Hrun|]. f_equal. lia.
      * rewrite nth_error_app2 by lia.
        replace (length lo + S j - length lo)%nat with (S j) by lia.
        cbn [nth_error].
        rewrite nth_error_app2 by (rewrite length_layout; lia).
        rewrite length_layout. exact Hnth.
    + destruct (IHlo p base fuel) as (j & Hj & Hrun & Hnth); [lia|lia|lia|lia|].
      exists j. split; [lia|]. split.
      * unwrap.
        replace (Z.of_nat (S p) - 1) with (Z.of_nat p) by lia.
        replace (base + Z.of_nat (length lo) - Z.of_nat (length lo)
                 + Z.of_nat (length lo) ÷ 2)
          with (base + Z.of_nat (length lo) ÷ 2) by lia.
        exact Hrun.
      * rewrite nth_error_app1 by lia. cbn [nth_error].
        rewrite nth_error_app1 by (rewrite length_layout; lia).
        exact Hnth.
Qed.

Lemma DeshuffleIndex_layout s p :
  (p < length s)%nat ->
  Z.of_nat (length s) <= INT_MAX ->
  exists j,
    (j < length s)%nat
    /\ DeshuffleIndex (Z.of_nat p) (Z.of_nat (length s)) = Done (Z.of_nat j)
    /\ nth_error s j = nth_error (layout s) p.
Proof.
  intros Hp Hmax. unfold DeshuffleIndex.
  destruct (Z.ltb_spec (Z.of_nat p) 0); [lia|].
  destruct (Z.leb_spec (Z.of_nat (length s)) (Z.of_nat p)); [lia|].
  cbn [orb]. rewrite Nat2Z.id.
  destruct (DeshuffleIndex_loop_layout s p 0 p Hp (Nat.le_refl _)
              (Z.le_refl 0) Hmax)
    as (j & Hj & Hrun & Hnth).
  exists j. repeat split; assumption.
Qed.

End DeshuffleFacts.

(** ** The sorted order after an insertion or a removal *)

Section SplicedFacts.
Implicit Types s below above rest : list Z.

Lemma insert_sorted_perm k s : Permutation (k :: s) (insert_sorted k s).
Proof.
  induction s as [|x t IH]; cbn [insert_sorted]; [reflexivity|].
  destruct (k <=? x); [reflexivity|].
  rewrite perm_swap. constructor. exact IH.
Qed.


Lemma insert_sorted_sorted k s :
  StronglySorted Z.le s -> StronglySorted Z.le (insert_sorted k s).
Proof.
  induction 1 as [|x t Ht IH Hx]; cbn [insert_sorted].
  - repeat constructor.
  - destruct (Z.leb_spec k x) as [Hle|Hgt].
    + constructor; [constructor; assumption|].
      constructor; [exact Hle|].
      eapply Forall_impl; [|exact Hx]. cbv beta. intros; lia.
    + constructor; [exact IH|].
      eapply Permutation_Forall; [apply insert_sorted_perm|].
      constructor; [lia|exact Hx].
Qed.

Lemma remove_one_incl k s x : In x (remove_one k s) -> In x s.
Proof.
  induction s as [|y t IH]; cbn [remove_one]; [intros []|].
  destruct (y =? k); [intros Hin; right; exact Hin|].
  intros [->|Hin]; [left; reflexivity|right; apply IH; exact Hin].
Qed.

Lemma remove_one_sorted k s :
  StronglySorted Z.le s -> StronglySorted Z.le (remove_one k s).
Proof.
  induction 1 as [|x t Ht IH Hx]; cbn [remove_one]; [constructor|].
  destruct (x =? k); [exact Ht|].
  constructor; [exact IH|].
  rewrite Forall_forall in Hx |- *. intros y Hy.
  apply Hx. eapply remove_one_incl. exact Hy.
Qed.

(** An ascending list without [k] is the elements below [k], then those
    above. *)
Lemma sorted_split_absent k s :
  StronglySorted Z.le s -> ~ In k s ->
  exists below above,
    s = below ++ above
    /\ Forall (fun x => x < k) below /\ Forall (fun x => k < x) above.
Proof.
  induction 1 as [|x t Ht IH Hx]; intros Hnot.
  - exists [], []. repeat split; constructor.
  - destruct (Z.lt_trichotomy x k) as [Hlt|[->|Hgt]].
    + destruct IH as (below & above & -> & Hb & Ha);
        [intros Hin; apply Hnot; right; exact Hin|].
      exists (x :: below), above. repeat split; [constructor|]; assumption.
    + exfalso. apply Hnot. left. reflexivity.
    + exists [], (x :: t). repeat split; [constructor|].
      constructor; [exact Hgt|].
      eapply Forall_impl; [|exact Hx]. cbv beta. intros; lia.
Qed.

Lemma insert_sorted_split k below above :
  Forall (fun x => x < k) below -> Forall (fun x => k < x) above ->
  insert_sorted k (below ++ above) = below ++ k :: above.
Proof.
  intros Hb Ha. induction Hb as [|x below Hx Hb IH]; cbn [app insert_sorted].
  - destruct Ha as [|y above Hy Ha]; [reflexivity|]. cbn [insert_sorted].
    destruct (Z.leb_spec k y); [reflexivity|lia].
  - destruct (Z.leb_spec k x); [lia|]. rewrite IH. reflexivity.
Qed.

Lemma all_equal_commute k s rest :
  Forall (eq k) s -> s ++ k :: rest = k :: s ++ rest.
Proof.
  induction 1 as [|x s <- Hs IH]; cbn [app]; [reflexivity|].
  rewrite IH. reflexivity.
Qed.

(** In an ascending list, taking out any occurrence of [k] leaves the same
    list as taking out the first. *)
Lemma remove_one_split k below above :
  StronglySorted Z.le (below ++ k :: above) ->
  remove_one k (below ++ k :: above) = below ++ above.
Proof.
  induction below as [|x below IH]; cbn [app remove_one]; intros Hs.
  - rewrite Z.eqb_refl. reflexivity.
  - apply StronglySorted_inv in Hs. destruct Hs as [Hs Hx].
    destruct (Z.eqb_spec x k) as [->|Hne]; [|rewrite (IH Hs); reflexivity].
    apply all_equal_commute. rewrite Forall_forall. intros y Hy.
    apply StronglySorted_app_inv in Hs. destruct Hs as (_ & _ & Hle & _).
    apply Forall_app in Hx. destruct Hx as [Hge _].
    rewrite Forall_forall in Hle, Hge.
    specialize (Hle y Hy). specialize (Hge y Hy). lia.
Qed.

End SplicedFacts.

(** ** The slot search of InsertShuffledArrayValue *)

Section SlotFacts.
Implicit Types below above rest : list Z.

Lemma rd_In a i x : rd a i = Done x -> In x a.
Proof.
  unfold rd. destruct (i <? 0); [discriminate|].
  destruct (nth_error a (Z.to_nat i)) as [v|] eqn:E; [|discriminate].
  intros [= <-]. eapply nth_error_In. exact E.
Qed.

Lemma rd_below a rest i :
  0 <= i < Z.of_nat (length a) -> rd (a ++ rest) i = rd a i.
Proof.
  intros Hi. unfold rd. destruct (i <? 0); [reflexivity|].
  rewrite nth_error_app1 by lia. reflexivity.
Qed.

(** Reading a list of values below [value] followed by values above it. *)
Lemma rd_split below above rest value i :
  Forall (fun x => x < value) below -> Forall (fun x => value < x) above ->
  0 <= i < Z.of_nat (length below + length above) ->
  exists x,
    rd (below ++ above ++ rest) i = Done x
    /\ (i < Z.of_nat (length below) -> x < value)
    /\ (Z.of_nat (length below) <= i -> value < x).
Proof.
  intros Hb Ha Hi. rewrite Forall_forall in Hb, Ha.
  destruct (Z.lt_ge_cases i (Z.of_nat (length below))) as [Hlt|Hge].
  - rewrite rd_below by lia.
    destruct (rd_in_range below i) as [x Hx]; [lia|].
    exists x. split; [exact Hx|]. split; [|lia].
    intros _. apply Hb. eapply rd_In. exact Hx.
  - replace i with (Z.of_nat (length below) + (i - Z.of_nat (length below)))
      by lia.
    rewrite rd_frame, rd_below by lia.
    destruct (rd_in_range above (i - Z.of_nat (length below))) as [x Hx];
      [lia|].
    exists x. split; [exact Hx|]. split; [lia|].
    intros _. apply Ha. eapply rd_In. exact Hx.
Qed.

(** The loop leaves by [break] at the first element above [value], or by
    its test when there is none. *)
Lemma InsertShuffledArrayValue_loop_ok below above rest value :
  Forall (fun x => x < value) below -> Forall (fun x => value < x) above ->
  2 * Z.of_nat (length below + length above) <= INT_MAX ->
  forall fuel first end_ index,
    0 <= first <= Z.of_nat (length below) ->
    end_ <= Z.of_nat (length below + length above) ->
    (Z.of_nat (length below) < end_
     \/ (above = [] /\ end_ = Z.of_nat (length below))) ->
    end_ - first <= Z.of_nat fuel ->
    exists first' end' index',
      InsertShuffledArrayValue_loop fuel value (below ++ above ++ rest)
        first end_ index
      = Done (first', end', index')
      /\ ((end' <> first' /\ index' = Z.of_nat (length below) /\ above <> [])
          \/ (end' = first' /\ above = [])).
Proof.
  intros Hb Ha Hint.
  induction fuel as [|fuel IH]; intros first end_ index Hfirst Hend Hinv Hfuel;
    cbn [InsertShuffledArrayValue_loop];
    destruct (Z.eqb_spec end_ first) as [->|Hne].
  1,3: exists first, first, index; split; [reflexivity|];
         right; split; [reflexivity|]; destruct Hinv as [?|[? ?]];
         [lia|assumption].
  - lia.
  - unwrap.
    assert (Hmid : first <= (first + end_) ÷ 2 < end_) by lia.
    set (mid := (first + end_) ÷ 2) in *.
    destruct (rd_split below above rest value mid Hb Ha) as (x & Hx & Hlo & Hhi);
      [lia|].
    rewrite Hx. cbn [bind].
    destruct (Z.lt_ge_cases mid (Z.of_nat (length below))) as [Hlt|Hge].
    + specialize (Hlo Hlt).
      destruct (Z.ltb_spec value x); [lia|]. cbn [bind].
      destruct (Z.ltb_spec x value); [|lia].
      apply IH; first [assumption|lia].
    + specialize (Hhi Hge).
      assert (Habove : above <> [])
        by (intros ->; cbn [length] in *; lia).
      destruct (Z.ltb_spec value x); [|lia].
      destruct (Z.eqb_spec mid 0) as [Hz|Hnz].
      * cbn [bind]. exists first, end_, mid. split; [reflexivity|].
        left. repeat split; [assumption|lia|assumption].
      * replace (wrap (mid - 1)) with (mid - 1)
          by (symmetry; apply wrap_small; unfold INT_MIN, INT_MAX in *; lia).
        destruct (rd_split below above rest value (mid - 1) Hb Ha)
          as (y & Hy & Hylo & Hyhi); [lia|].
        rewrite Hy. cbn [bind].
        destruct (Z.ltb_spec y value) as [Hyv|Hyv].
        -- exists first, end_, mid. split; [reflexivity|].
           left. repeat split; [assumption|lia|assumption].
        -- destruct (Z.ltb_spec x value); [lia|].
           apply IH; first [lia|left; lia].
Qed.

End SlotFacts.

(** ** InsertShuffledArrayValue and RemoveShuffledArrayValue on a layout *)

Section MutationFacts.
Implicit Types s rest : list Z.

Lemma SortShuffledArray_layout s rest :
  Z.of_nat (length s) <= INT_MAX ->
  SortShuffledArray (layout s ++ rest) (Z.of_nat (length s)) = Done (s ++ rest).
Proof.
  intros Hmax. rewrite <- (length_layout s).
  rewrite SortShuffledArray_region by (rewrite length_layout; exact Hmax).
  rewrite unlayout_layout. reflexivity.
Qed.

Lemma InsertShuffledArrayValue_absent s x rest value :
  StronglySorted Z.le s -> ~ In value s ->
  2 * Z.of_nat (length s) <= INT_MAX ->
  InsertShuffledArrayValue value (layout s ++ x :: rest) (Z.of_nat (length s))
  = Done (layout (insert_sorted value s) ++ rest, Z.of_nat (length s) + 1).
Proof.
  intros Hs Hnot Hmax. unfold InsertShuffledArrayValue.
  destruct (ShuffledBinarySearch_layout s (x :: rest) value Hs ltac:(lia))
    as [_ Hout].
  rewrite (Hout Hnot). cbn [bind Z.ltb Z.compare].
  rewrite SortShuffledArray_layout by lia. cbn [bind].
  destruct (sorted_split_absent value s Hs Hnot)
    as (below & above & -> & Hb & Ha).
  rewrite (insert_sorted_split value below above Hb Ha).
  rewrite length_app in Hmax. rewrite length_app, Nat2Z.id, <- app_assoc.
  destruct (InsertShuffledArrayValue_loop_ok below above (x :: rest) value
              Hb Ha Hmax (length below + length above) 0
              (Z.of_nat (length below + length above)) 0)
    as (first' & end' & index' & Hrun & Hexit); [lia|lia| |lia|].
  { destruct above; [right; split; [reflexivity|cbn [length]; lia]|].
    left. cbn [length]. lia. }
  rewrite Hrun. cbn [bind]. unfold iadd.
  rewrite (wrap_small (Z.of_nat (length below + length above) + 1))
    by (unfold INT_MIN, INT_MAX in *; lia).
  assert (Hcount : Z.of_nat (length (below ++ value :: above))
                   = Z.of_nat (length below + length above) + 1)
    by (rewrite length_app; cbn [length]; lia).
  destruct Hexit as [(Hne & -> & Habove)|(-> & ->)].
  - destruct (Z.eqb_spec end' first'); [contradiction|].
    destruct above as [|y above]; [contradiction|].
    unwrap.
    replace (Z.of_nat (length below + length (y :: above))
             - Z.of_nat (length below))
      with (Z.of_nat (length (y :: above))) by lia.
    rewrite memmove_up. cbn [bind].
    rewrite wr_here by reflexivity. cbn [bind].
    rewrite <- Hcount.
    replace (below ++ value :: (y :: above) ++ rest)
      with ((below ++ value :: y :: above) ++ rest)
      by (norm_app; reflexivity).
    rewrite ShuffleSortedArray_region by (unfold INT_MAX in *; lia).
    reflexivity.
  - rewrite Z.eqb_refl. cbn [bind app length] in Hcount |- *.
    rewrite wr_here by lia. cbn [bind].
    rewrite <- Hcount.
    replace (below ++ value :: rest) with ((below ++ [value]) ++ rest)
      by (norm_app; reflexivity).
    rewrite ShuffleSortedArray_region by (unfold INT_MAX in *; lia).
    reflexivity.
Qed.

Lemma InsertShuffledArrayValue_present s rest value :
  StronglySorted Z.le s -> In value s ->
  Z.of_nat (length s) <= INT_MAX ->
  InsertShuffledArrayValue value (layout s ++ rest) (Z.of_nat (length s))
  = Done (layout s ++ rest, Z.of_nat (length s)).
Proof.
  intros Hs Hin Hmax. unfold InsertShuffledArrayValue.
  destruct (ShuffledBinarySearch_layout s rest value Hs Hmax) as [Hfound _].
  destruct (Hfound Hin) as (p & -> & Hp & _). cbn [bind].
  destruct (Z.ltb_spec p 0); [lia|]. reflexivity.
Qed.

Lemma RemoveShuffledArrayValue_absent s rest value :
  StronglySorted Z.le s -> ~ In value s ->
  Z.of_nat (length s) <= INT_MAX ->
  RemoveShuffledArrayValue value (layout s ++ rest) (Z.of_nat (length s))
  = Done (layout s ++ rest, Z.of_nat (length s)).
Proof.
  intros Hs Hnot Hmax. unfold RemoveShuffledArrayValue.
  destruct (ShuffledBinarySearch_layout s rest value Hs Hmax) as [_ Hout].
  rewrite (Hout Hnot). reflexivity.
Qed.

(** After a removal the slot just past the region still holds the
    greatest element of the old region. *)
Lemma RemoveShuffledArrayValue_present s rest value :
  StronglySorted Z.le s -> In value s ->
  Z.of_nat (length s) <= INT_MAX ->
  RemoveShuffledArrayValue value (layout s ++ rest) (Z.of_nat (length s))
  = Done (layout (remove_one value s) ++ last s 0 :: rest,
          Z.of_nat (length s) - 1).
Proof.
  intros Hs Hin Hmax. unfold RemoveShuffledArrayValue.
  destruct (ShuffledBinarySearch_layout s rest value Hs Hmax) as [Hfound _].
  destruct (Hfound Hin) as (p & -> & Hp & Hrd). cbn [bind].
  destruct (Z.leb_spec 0 p); [|lia].
  rewrite SortShuffledArray_layout by exact Hmax. cbn [bind].
  destruct (DeshuffleIndex_layout s (Z.to_nat p)) as (j & Hj & Hde & Hnth);
    [lia|exact Hmax|].
  rewrite Z2Nat.id in Hde by lia. rewrite Hde. cbn [bind].
  assert (Hpos : 1 <= Z.of_nat (length s)) by lia.
  unwrap.
  assert (Hval : nth_error s j = Some value).
  { rewrite Hnth. rewrite rd_below in Hrd by (rewrite length_layout; lia).
    unfold rd in Hrd. destruct (p <? 0); [discriminate|].
    destruct (nth_error (layout s) (Z.to_nat p)); congruence. }
  apply nth_error_split in Hval. destruct Hval as (s1 & s2 & -> & <-).
  rewrite (remove_one_split value s1 s2 Hs).
  rewrite length_app in *. cbn [length] in *.
  assert (Hcount : Z.of_nat (length s1 + S (length s2)) - 1
                   = Z.of_nat (length (s1 ++ s2)))
    by (rewrite length_app; lia).
  destruct (list_eq_nil_dec s2) as [->|Hne2];
    [|destruct (exists_last Hne2) as (s2' & y & ->)].
  - cbn [length] in *.
    destruct (Z.ltb_spec (Z.of_nat (length s1)) (Z.of_nat (length s1 + 1) - 1));
      [lia|].
    cbn [bind]. rewrite Hcount, last_last, app_nil_r.
    rewrite <- app_assoc. cbn [app].
    rewrite ShuffleSortedArray_region by lia.
    reflexivity.
  - destruct (Z.ltb_spec (Z.of_nat (length s1))
                (Z.of_nat (length s1 + S (length (s2' ++ [y]))) - 1)) as [_|Hge];
      [|rewrite length_app in Hge; cbn [length] in Hge; lia].
    replace (Z.of_nat (length s1 + S (length (s2' ++ [y]))) - 1
             - Z.of_nat (length s1))
      with (Z.of_nat (length (s2' ++ [y]))) by lia.
    replace ((s1 ++ value :: s2' ++ [y]) ++ rest)
      with (s1 ++ value :: (s2' ++ [y]) ++ rest) by (norm_app; reflexivity).
    rewrite memmove_down. cbn [bind].
    rewrite Hcount.
    replace (s1 ++ (s2' ++ [y]) ++ y :: rest)
      with ((s1 ++ s2' ++ [y]) ++ y :: rest) by (norm_app; reflexivity).
    rewrite ShuffleSortedArray_region by lia.
    replace (s1 ++ value :: s2' ++ [y]) with ((s1 ++ value :: s2') ++ [y])
      by (norm_app; reflexivity).
    rewrite last_last. reflexivity.
Qed.

End MutationFacts.

(** ** The layout invariant holds of the layout *)

Section LayoutFacts.
Implicit Types s t lo hi : list Z.

Lemma Layout_length upper s t : Layout upper s t -> length s = length t.
Proof.
  induction 1 as [|lo m hi lo' hi' _ _ _ IHlo _ IHhi]; [reflexivity|].
  cbn [length]. rewrite !length_app. cbn [length]. lia.
Qed.

Lemma Layout_layout s : Layout upper_floor s (layout s).
Proof.
  induction s as [|lo m hi Hlo IHlo IHhi] using median_ind; [constructor|].
  rewrite layout_node by exact Hlo.
  constructor; try assumption; unfold upper_floor, floor_half;
    rewrite length_layout; rewrite length_app in Hlo |- *;
    cbn [length] in Hlo |- *; lia.
Qed.

(** The invariant leaves no freedom: it holds of the layout only. *)
Lemma Layout_unique s t : Layout upper_floor s t -> t = layout s.
Proof.
  induction 1 as [|lo m hi lo' hi' Hl Hu Hlo IHlo Hhi IHhi]; [reflexivity|].
  subst lo' hi'. rewrite layout_node; [reflexivity|].
  rewrite length_layout in Hl. exact Hl.
Qed.

End LayoutFacts.

(** * The claims *)

(** C1. A region of [count] elements, [count] an [int], that is shuffled
    and then sorted, or sorted and then shuffled, holds again what it held,
    element for element:
    [ShuffleSortedArray] followed by [SortShuffledArray] on the same region
    gives back the array, and so does [SortShuffledArray] followed by
    [ShuffleSortedArray].  It holds of every region, so of every sorted one
    and of every validly shuffled one. *)
Theorem shuffle_sort_roundtrip (a : list Z) (count : Z) :
  0 <= count <= Z.of_nat (length a) ->
  count <= INT_MAX ->
  (exists b, ShuffleSortedArray a count = Done b
             /\ SortShuffledArray b count = Done a)
  /\ (exists b, SortShuffledArray a count = Done b
                /\ ShuffleSortedArray b count = Done a).
Proof.
  intros Hcount Hmax.
  set (blk := firstn (Z.to_nat count) a).
  set (post := skipn (Z.to_nat count) a).
  assert (Ha : a = blk ++ post) by (symmetry; apply firstn_skipn).
  assert (Hlen : count = Z.of_nat (length blk))
    by (subst blk; rewrite length_firstn; lia).
  clearbody blk post. subst a count. split.
  - exists (layout blk ++ post). split.
    + apply ShuffleSortedArray_region. exact Hmax.
    + rewrite <- (length_layout blk).
      rewrite SortShuffledArray_region by (rewrite length_layout; exact Hmax).
      rewrite unlayout_layout. reflexivity.
  - exists (unlayout blk ++ post). split.
    + apply SortShuffledArray_region. exact Hmax.
    + rewrite <- (length_unlayout blk).
      rewrite ShuffleSortedArray_region by (rewrite length_unlayout; exact Hmax).
      rewrite layout_unlayout. reflexivity.
Qed.

Lemma shuffle_sort_roundtrip_witness :
  (0 <= 11 <= Z.of_nat (length [0; 1; 2; 3; 4; 5; 6; 7; 8; 9; 10; 11]))
  /\ 11 <= INT_MAX
  /\ (exists b, ShuffleSortedArray [0; 1; 2; 3; 4; 5; 6; 7; 8; 9; 10; 11] 11 = Done b
                /\ SortShuffledArray b 11 = Done [0; 1; 2; 3; 4; 5; 6; 7; 8; 9; 10; 11])
  /\ (exists b, SortShuffledArray [0; 1; 2; 3; 4; 5; 6; 7; 8; 9; 10; 11] 11 = Done b
                /\ ShuffleSortedArray b 11 = Done [0; 1; 2; 3; 4; 5; 6; 7; 8; 9; 10; 11]).
Proof.
  split; [simpl; lia|]. split; [unfold INT_MAX; lia|].
  apply (shuffle_sort_roundtrip [0; 1; 2; 3; 4; 5; 6; 7; 8; 9; 10; 11] 11);
    [simpl; lia|unfold INT_MAX; lia].
Defined.

(** C2, as amended.  After [ShuffleSortedArray] a region of [count]
    elements holds the layout of what it held, and the array beyond it is as
    it was: for every block, and every block within it, position 0 holds the
    median of the block's sorted order, the next floor(n/2) positions hold
    the layout of the elements below the median, and the remaining
    floor((n-1)/2) positions hold the layout of the elements above it.  The
    rearrangement is by position, so nothing is asked of the order of [s];
    when [s] ascends it is the sorted order of the region. *)
Theorem shuffle_layout_invariant (s rest : list Z) :
  Z.of_nat (length s) <= INT_MAX ->
  exists t, ShuffleSortedArray (s ++ rest) (Z.of_nat (length s)) = Done (t ++ rest)
            /\ Layout upper_floor s t.
Proof.
  intros Hmax. exists (layout s). split.
  - apply ShuffleSortedArray_region. exact Hmax.
  - apply Layout_layout.
Qed.

Lemma shuffle_layout_invariant_witness :
  Z.of_nat (length [0; 1; 2; 3; 4; 5; 6; 7; 8; 9]) <= INT_MAX
  /\ exists t, ShuffleSortedArray ([0; 1; 2; 3; 4; 5; 6; 7; 8; 9] ++ [42])
                 (Z.of_nat (length [0; 1; 2; 3; 4; 5; 6; 7; 8; 9]))
               = Done (t ++ [42])
               /\ Layout upper_floor [0; 1; 2; 3; 4; 5; 6; 7; 8; 9] t.
Proof.
  split; [unfold INT_MAX; simpl; lia|].
  apply (shuffle_layout_invariant [0; 1; 2; 3; 4; 5; 6; 7; 8; 9] [42]).
  unfold INT_MAX; simpl; lia.
Defined.

(** C2 as stated fails: with ceil((n-1)/2) positions for the upper block a
    block of two elements would need three positions.  The sorted region
    [0; 1] is shuffled to [1; 0], which is no layout in that sense. *)
Lemma shuffle_layout_ceil_counterexample :
  ascending [0; 1] = true
  /\ ShuffleSortedArray [0; 1] 2 = Done [1; 0]
  /\ ~ Layout upper_ceil [0; 1] [1; 0].
Proof.
  split; [reflexivity|]. split; [reflexivity|].
  intros H. inversion H as [|lo m hi lo' hi' Hl Hu Hlo Hhi Es Et].
  subst m. rewrite Es in Hl, Hu.
  assert (Hlen : length (lo' ++ hi') = 1%nat)
    by (match goal with E : lo' ++ hi' = _ |- _ => rewrite E end; reflexivity).
  rewrite length_app in Hlen.
  unfold upper_ceil, ceil_half, floor_half in Hl, Hu.
  cbn [length Nat.sub Nat.add Nat.div2] in Hl, Hu. lia.
Qed.

(** C3, as amended.  For a sorted sequence without repeated values, the
    search for its [i]-th element in the shuffled array returns a position
    that [DeshuffleIndex] maps back to [i]. *)
Theorem deshuffle_search_rank (s : list Z) (i : nat) :
  strictly_ascending s = true ->
  Z.of_nat (length s) <= INT_MAX ->
  (i < length s)%nat ->
  exists t p,
    ShuffleSortedArray s (Z.of_nat (length s)) = Done t
    /\ ShuffledBinarySearch (nth i s 0) t (Z.of_nat (length s)) = Done p
    /\ DeshuffleIndex p (Z.of_nat (length s)) = Done (Z.of_nat i).
Proof.
  intros Hs Hmax Hi.
  pose proof (strictly_ascending_sorted s Hs) as Hlt.
  pose proof (ascending_sorted s (strictly_ascending_ascending s Hs)) as Hle.
  destruct (ShuffledBinarySearch_layout s [] (nth i s 0) Hle Hmax)
    as [Hfound _].
  destruct (Hfound (nth_In s 0 Hi)) as (p & Hp & Hrange & Hrd).
  rewrite app_nil_r in Hp, Hrd.
  exists (layout s), p. split; [|split; [exact Hp|]].
  - rewrite <- (app_nil_r s) at 1. rewrite <- (app_nil_r (layout s)).
    apply ShuffleSortedArray_region. exact Hmax.
  - destruct (DeshuffleIndex_layout s (Z.to_nat p)) as (j & Hj & Hde & Hnth);
      [lia|exact Hmax|].
    rewrite Z2Nat.id in Hde by lia. rewrite Hde. do 2 f_equal.
    unfold rd in Hrd. destruct (p <? 0); [discriminate|].
    destruct (nth_error (layout s) (Z.to_nat p)) as [v|] eqn:E; [|discriminate].
    injection Hrd as ->.
    eapply StronglySorted_lt_nth_inj; [exact Hlt|exact Hnth|].
    apply nth_error_nth'. exact Hi.
Qed.

Lemma deshuffle_search_rank_witness :
  strictly_ascending [3; 5; 8; 13; 21; 34] = true
  /\ Z.of_nat (length [3; 5; 8; 13; 21; 34]) <= INT_MAX
  /\ (4 < length [3; 5; 8; 13; 21; 34])%nat
  /\ exists t p,
       ShuffleSortedArray [3; 5; 8; 13; 21; 34]
         (Z.of_nat (length [3; 5; 8; 13; 21; 34])) = Done t
       /\ ShuffledBinarySearch (nth 4 [3; 5; 8; 13; 21; 34] 0) t
            (Z.of_nat (length [3; 5; 8; 13; 21; 34])) = Done p
       /\ DeshuffleIndex p (Z.of_nat (length [3; 5; 8; 13; 21; 34]))
          = Done (Z.of_nat 4).
Proof.
  split; [reflexivity|]. split; [unfold INT_MAX; simpl; lia|].
  split; [simpl; lia|].
  apply (deshuffle_search_rank [3; 5; 8; 13; 21; 34] 4);
    [reflexivity|unfold INT_MAX; simpl; lia|simpl; lia].
Defined.

(** C3 as stated, for sorted sequences that may repeat a value, fails: in
    [1; 1] the search for the element of rank 0 stops at shuffled position
    0, which is rank 1. *)
Lemma deshuffle_search_rank_duplicates :
  ascending [1; 1] = true
  /\ ShuffleSortedArray [1; 1] 2 = Done [1; 1]
  /\ ShuffledBinarySearch (nth 0 [1; 1] 0) [1; 1] 2 = Done 0
  /\ DeshuffleIndex 0 2 = Done 1
  /\ DeshuffleIndex 0 2 <> Done (Z.of_nat 0).
Proof.
  repeat split; try reflexivity. discriminate.
Qed.

(** C4. Whatever the key and the array, for a count that is not negative
    (and is an [int]) the positions at which [ShuffledBinarySearch] reads
    are strictly increasing: each lies above all those read before it. *)
Theorem search_reads_increasing (value : Z) (a : list Z) (count : Z) :
  0 <= count <= INT_MAX ->
  StronglySorted Z.lt (ShuffledBinarySearch_reads value a count).
Proof.
  intros Hc. unfold ShuffledBinarySearch_reads.
  apply (ShuffledBinarySearch_loop_inv (Z.to_nat count) value a 0 count);
    lia.
Qed.

Lemma search_reads_increasing_witness :
  0 <= 5 <= INT_MAX
  /\ StronglySorted Z.lt (ShuffledBinarySearch_reads 3 [2; 1; 0; 4; 3] 5).
Proof.
  split; [unfold INT_MAX; lia|].
  apply (search_reads_increasing 3 [2; 1; 0; 4; 3] 5). unfold INT_MAX; lia.
Defined.



(** C6. On the shuffle of a sorted sequence [s], [ShuffledBinarySearch]
    returns -1 for a key that is not in [s], and for a key in [s] a position
    within the region at which the array holds the key. *)
Theorem search_found_or_not (s : list Z) (k : Z) :
  ascending s = true ->
  Z.of_nat (length s) <= INT_MAX ->
  exists t,
    ShuffleSortedArray s (Z.of_nat (length s)) = Done t
    /\ (~ In k s -> ShuffledBinarySearch k t (Z.of_nat (length s)) = Done (-1))
    /\ (In k s ->
        exists p,
          ShuffledBinarySearch k t (Z.of_nat (length s)) = Done p
          /\ 0 <= p < Z.of_nat (length s)
          /\ rd t p = Done k).
Proof.
  intros Hasc Hmax. pose proof (ascending_sorted s Hasc) as Hs.
  exists (layout s). split.
  - rewrite <- (app_nil_r s) at 1. rewrite <- (app_nil_r (layout s)).
    apply ShuffleSortedArray_region. exact Hmax.
  - destruct (ShuffledBinarySearch_layout s [] k Hs Hmax) as [Hfound Hout].
    rewrite app_nil_r in Hfound, Hout. split; assumption.
Qed.

Lemma search_found_or_not_witness :
  ascending [1; 4; 4; 6; 9; 12; 15; 20; 22] = true
  /\ Z.of_nat (length [1; 4; 4; 6; 9; 12; 15; 20; 22]) <= INT_MAX
  /\ exists t,
       ShuffleSortedArray [1; 4; 4; 6; 9; 12; 15; 20; 22]
         (Z.of_nat (length [1; 4; 4; 6; 9; 12; 15; 20; 22])) = Done t
       /\ (~ In 15 [1; 4; 4; 6; 9; 12; 15; 20; 22] ->
           ShuffledBinarySearch 15 t
             (Z.of_nat (length [1; 4; 4; 6; 9; 12; 15; 20; 22])) = Done (-1))
       /\ (In 15 [1; 4; 4; 6; 9; 12; 15; 20; 22] ->
           exists p,
             ShuffledBinarySearch 15 t
               (Z.of_nat (length [1; 4; 4; 6; 9; 12; 15; 20; 22])) = Done p
             /\ 0 <= p < Z.of_nat (length [1; 4; 4; 6; 9; 12; 15; 20; 22])
             /\ rd t p = Done 15).
Proof.
  split; [reflexivity|]. split; [unfold INT_MAX; simpl; lia|].
  apply (search_found_or_not [1; 4; 4; 6; 9; 12; 15; 20; 22] 15);
    [reflexivity|unfold INT_MAX; simpl; lia].
Defined.

(** C7. On the shuffle [t] of a sorted sequence [s],
    [InsertShuffledArrayValue] with a key already in [s] and
    [RemoveShuffledArrayValue] with a key not in [s] return the count they
    were given and the array they were given. *)
Theorem insert_remove_no_change (s : list Z) (k : Z) (rest : list Z) :
  ascending s = true ->
  Z.of_nat (length s) <= INT_MAX ->
  exists t,
    ShuffleSortedArray s (Z.of_nat (length s)) = Done t
    /\ (In k s ->
        InsertShuffledArrayValue k (t ++ rest) (Z.of_nat (length s))
        = Done (t ++ rest, Z.of_nat (length s)))
    /\ (~ In k s ->
        RemoveShuffledArrayValue k (t ++ rest) (Z.of_nat (length s))
        = Done (t ++ rest, Z.of_nat (length s))).
Proof.
  intros Hasc Hmax. pose proof (ascending_sorted s Hasc) as Hs.
  exists (layout s). split; [|split].
  - rewrite <- (app_nil_r s) at 1. rewrite <- (app_nil_r (layout s)).
    apply ShuffleSortedArray_region. exact Hmax.
  - intros Hin. apply InsertShuffledArrayValue_present; assumption.
  - intros Hnot. apply RemoveShuffledArrayValue_absent; assumption.
Qed.

Lemma insert_remove_no_change_witness :
  ascending [2; 3; 5; 7; 11] = true
  /\ Z.of_nat (length [2; 3; 5; 7; 11]) <= INT_MAX
  /\ exists t,
       ShuffleSortedArray [2; 3; 5; 7; 11] (Z.of_nat (length [2; 3; 5; 7; 11]))
       = Done t
       /\ (In 7 [2; 3; 5; 7; 11] ->
           InsertShuffledArrayValue 7 (t ++ [0])
             (Z.of_nat (length [2; 3; 5; 7; 11]))
           = Done (t ++ [0], Z.of_nat (length [2; 3; 5; 7; 11])))
       /\ (~ In 7 [2; 3; 5; 7; 11] ->
           RemoveShuffledArrayValue 7 (t ++ [0])
             (Z.of_nat (length [2; 3; 5; 7; 11]))
           = Done (t ++ [0], Z.of_nat (length [2; 3; 5; 7; 11]))).
Proof.
  split; [reflexivity|]. split; [unfold INT_MAX; simpl; lia|].
  apply (insert_remove_no_change [2; 3; 5; 7; 11] 7 [0]);
    [reflexivity|unfold INT_MAX; simpl; lia].
Defined.

(** C8. For every count and every position outside [0, count),
    [DeshuffleIndex] returns -1; so it does for -1 itself, and a search that
    found nothing composes with it to -1. *)
Theorem deshuffle_out_of_range (position n : Z) :
  position < 0 \/ n <= position ->
  DeshuffleIndex position n = Done (-1)
  /\ DeshuffleIndex (-1) n = Done (-1)
  /\ forall value a,
       ShuffledBinarySearch value a n = Done (-1) ->
       (p <- ShuffledBinarySearch value a n ;; DeshuffleIndex p n) = Done (-1).
Proof.
  intros Hout. split; [|split].
  - unfold DeshuffleIndex.
    destruct (Z.ltb_spec position 0); [reflexivity|].
    destruct (Z.leb_spec n position); [reflexivity|lia].
  - reflexivity.
  - intros value a ->. reflexivity.
Qed.

Lemma deshuffle_out_of_range_witness :
  (7 < 0 \/ 5 <= 7)
  /\ DeshuffleIndex 7 5 = Done (-1)
  /\ DeshuffleIndex (-1) 5 = Done (-1)
  /\ forall value a,
       ShuffledBinarySearch value a 5 = Done (-1) ->
       (p <- ShuffledBinarySearch value a 5 ;; DeshuffleIndex p 5) = Done (-1).
Proof.
  split; [lia|]. apply (deshuffle_out_of_range 7 5). lia.
Defined.

(** C9, as amended.  [0; 1; 2; 3; 4] is shuffled to [2; 1; 0; 4; 3]; the
    search for 3 in it returns 4, the position of the value 3, which
    [DeshuffleIndex] maps to 3, its sorted rank; and [DeshuffleIndex 3 5] is
    4, the rank of the value 4 that position 3 holds. *)
Theorem literal_search_deshuffle :
  ShuffleSortedArray [0; 1; 2; 3; 4] 5 = Done [2; 1; 0; 4; 3]
  /\ ShuffledBinarySearch 3 [2; 1; 0; 4; 3] 5 = Done 4
  /\ DeshuffleIndex 4 5 = Done 3
  /\ DeshuffleIndex 3 5 = Done 4.
Proof. repeat split; reflexivity. Qed.

(** C9 as stated fails: the search for 3 in [2; 1; 0; 4; 3] does not
    return 3, where the array holds 4. *)
Lemma literal_search_counterexample :
  ShuffledBinarySearch 3 [2; 1; 0; 4; 3] 5 <> Done 3
  /\ rd [2; 1; 0; 4; 3] 3 = Done 4.
Proof. split; [discriminate|reflexivity]. Qed.

(** C10. For a count from 0 to the length of the array (and an [int]),
    every position [ShuffledBinarySearch] reads is in [0, count), and the
    search returns a value: the out-of-bounds outcome is not reached, nor is
    the fuel used up. *)
Theorem search_reads_in_bounds (value : Z) (a : list Z) (count : Z) :
  0 <= count <= Z.of_nat (length a) ->
  count <= INT_MAX ->
  Forall (fun i => 0 <= i < count) (ShuffledBinarySearch_reads value a count)
  /\ exists r, ShuffledBinarySearch value a count = Done r.
Proof.
  intros Hc Hmax. unfold ShuffledBinarySearch_reads, ShuffledBinarySearch.
  destruct (ShuffledBinarySearch_loop_inv (Z.to_nat count) value a 0 count
              ltac:(lia) ltac:(lia) ltac:(lia)) as (_ & Hb & Hf & Hd).
  split; [exact Hb|].
  destruct (snd (ShuffledBinarySearch_loop (Z.to_nat count) value a 0 count))
    as [r| |].
  - exists r. reflexivity.
  - exfalso. apply Hf; [lia|reflexivity].
  - exfalso. apply Hd; [lia|reflexivity].
Qed.

Lemma search_reads_in_bounds_witness :
  (0 <= 5 <= Z.of_nat (length [2; 1; 0; 4; 3]))
  /\ 5 <= INT_MAX
  /\ Forall (fun i => 0 <= i < 5) (ShuffledBinarySearch_reads 7 [2; 1; 0; 4; 3] 5)
  /\ exists r, ShuffledBinarySearch 7 [2; 1; 0; 4; 3] 5 = Done r.
Proof.
  split; [simpl; lia|]. split; [unfold INT_MAX; lia|].
  apply (search_reads_in_bounds 7 [2; 1; 0; 4; 3] 5);
    [simpl; lia|unfold INT_MAX; lia].
Defined.

(** * Beyond the claims *)

(** ** RegularBinarySearch *)

Section RegularFacts.
Implicit Types s rest a : list Z.

Lemma sorted_nth_le s : StronglySorted Z.le s ->
  forall i j x y, (i <= j)%nat ->
    nth_error s i = Some x -> nth_error s j = Some y -> x <= y.
Proof.
  induction 1 as [|z s Hs IH Hz]; intros i j x y Hij Hi Hj.
  - destruct i; discriminate.
  - destruct i as [|i], j as [|j]; cbn [nth_error] in Hi, Hj; try lia.
    + injection Hi as ->. injection Hj as ->. lia.
    + injection Hi as ->. rewrite Forall_forall in Hz.
      apply Hz. eapply nth_error_In. exact Hj.
    + eapply IH; [|exact Hi|exact Hj]. lia.
Qed.

Lemma rd_nth_error a i x :
  rd a i = Done x <-> 0 <= i /\ nth_error a (Z.to_nat i) = Some x.
Proof.
  unfold rd. destruct (Z.ltb_spec i 0).
  - split; [discriminate|lia].
  - destruct (nth_error a (Z.to_nat i)) as [v|]; split.
    + intros [= ->]. split; [lia|reflexivity].
    + intros [_ [= ->]]. reflexivity.
    + discriminate.
    + intros [_ [=]].
Qed.

(** The loop on any array: it returns, and what it returns is -1 or a
    position between [first] and [end] that holds the key. *)
Lemma RegularBinarySearch_loop_sound value a : forall fuel first end_,
  0 <= first <= end_ -> end_ <= Z.of_nat (length a) ->
  2 * end_ <= INT_MAX -> end_ - first <= Z.of_nat fuel ->
  exists p, RegularBinarySearch_loop fuel value a first end_ = Done p
            /\ (p = -1 \/ (first <= p < end_ /\ rd a p = Done value)).
Proof.
  induction fuel as [|fuel IH]; intros first end_ Hfe Hlen Hint Hfuel;
    cbn [RegularBinarySearch_loop]; destruct (Z.eqb_spec end_ first) as [->|Hne].
  1,3: exists (-1); split; [reflexivity|left; reflexivity].
  - lia.
  - unwrap. set (mid := (first + end_) ÷ 2).
    assert (Hmid : first <= mid < end_) by (subst mid; lia).
    destruct (rd_in_range a mid) as [x Hx]; [lia|]. rewrite Hx. cbn [bind].
    destruct (Z.eqb_spec value x) as [->|Hvx].
    + exists mid. split; [reflexivity|]. right. split; [lia|exact Hx].
    + destruct (x <? value).
      * destruct (IH (mid + 1) end_) as (p & Hp & Hor); try lia.
        exists p. split; [exact Hp|]. destruct Hor as [->|[Hr Hv]];
          [left; reflexivity|right; split; [lia|exact Hv]].
      * destruct (IH first mid) as (p & Hp & Hor); try lia.
        exists p. split; [exact Hp|]. destruct Hor as [->|[Hr Hv]];
          [left; reflexivity|right; split; [lia|exact Hv]].
Qed.

(** The loop on an ascending region: while every element before [first] is
    below the key and every element from [end] on is above it, a key of the
    region is found. *)
Lemma RegularBinarySearch_loop_sorted value s rest :
  StronglySorted Z.le s -> In value s ->
  2 * Z.of_nat (length s) <= INT_MAX ->
  forall fuel first end_,
    0 <= first <= end_ -> end_ <= Z.of_nat (length s) ->
    (forall i x, (Z.of_nat i < first) ->
                 nth_error s i = Some x -> x < value) ->
    (forall i x, (end_ <= Z.of_nat i) ->
                 nth_error s i = Some x -> value < x) ->
    end_ - first <= Z.of_nat fuel ->
    exists p, RegularBinarySearch_loop fuel value (s ++ rest) first end_ = Done p
              /\ first <= p < end_ /\ rd (s ++ rest) p = Done value.
Proof.
  intros Hs Hin Hint.
  assert (Hexit : forall first,
             (forall i x, (Z.of_nat i < first) ->
                          nth_error s i = Some x -> x < value) ->
             (forall i x, (first <= Z.of_nat i) ->
                          nth_error s i = Some x -> value < x) -> False).
  { intros first Hlo Hhi. apply In_nth_error in Hin. destruct Hin as [i Hi].
    destruct (Z.lt_ge_cases (Z.of_nat i) first) as [Hlt|Hge].
    - specialize (Hlo i value Hlt Hi). lia.
    - specialize (Hhi i value Hge Hi). lia. }
  induction fuel as [|fuel IH]; intros first end_ Hfe Hlen Hlo Hhi Hfuel;
    cbn [RegularBinarySearch_loop]; destruct (Z.eqb_spec end_ first) as [->|Hne].
  1,3: exfalso; eapply Hexit; eassumption.
  - lia.
  - unwrap. set (mid := (first + end_) ÷ 2).
    assert (Hmid : first <= mid < end_) by (subst mid; lia).
    destruct (rd_in_range s mid) as [x Hx]; [lia|].
    rewrite rd_below by lia. rewrite Hx. cbn [bind].
    pose proof (proj1 (rd_nth_error s mid x) Hx) as [_ Hnth].
    destruct (Z.eqb_spec value x) as [->|Hvx].
    + exists mid. split; [reflexivity|]. split; [lia|].
      rewrite rd_below by lia. exact Hx.
    + destruct (Z.ltb_spec x value) as [Hlt|Hge].
      * destruct (IH (mid + 1) end_) as (p & Hp & Hr & Hv); try lia;
          try assumption.
        { intros i y Hi Hy.
          assert (y <= x)
            by (eapply (sorted_nth_le s Hs i (Z.to_nat mid));
                [lia|exact Hy|exact Hnth]).
          lia. }
        exists p. split; [exact Hp|]. split; [lia|exact Hv].
      * destruct (IH first mid) as (p & Hp & Hr & Hv); try lia;
          try assumption.
        { intros i y Hi Hy.
          assert (x <= y)
            by (eapply (sorted_nth_le s Hs (Z.to_nat mid) i);
                [lia|exact Hnth|exact Hy]).
          lia. }
        exists p. split; [exact Hp|]. split; [lia|exact Hv].
Qed.

End RegularFacts.

(** X1. On any array of at least [end] elements, [end] an [int] whose
    double is one too, [RegularBinarySearch] returns, and it returns -1 or a
    position in [0, end) at which the array holds the key: it never reads
    outside the array and never answers with a position that holds another
    value. *)
Theorem regular_search_sound (value : Z) (a : list Z) (end_ : Z) :
  0 <= end_ <= Z.of_nat (length a) ->
  2 * end_ <= INT_MAX ->
  exists p, RegularBinarySearch value a end_ = Done p
            /\ (p = -1 \/ (0 <= p < end_ /\ rd a p = Done value)).
Proof.
  intros Hend Hint. unfold RegularBinarySearch.
  apply RegularBinarySearch_loop_sound; lia.
Qed.

Lemma regular_search_sound_witness :
  (0 <= 6 <= Z.of_nat (length [9; 2; 7; 7; 1; 4]))
  /\ 2 * 6 <= INT_MAX
  /\ exists p, RegularBinarySearch 7 [9; 2; 7; 7; 1; 4] 6 = Done p
               /\ (p = -1 \/ (0 <= p < 6 /\ rd [9; 2; 7; 7; 1; 4] p = Done 7)).
Proof.
  split; [simpl; lia|]. split; [unfold INT_MAX; lia|].
  apply (regular_search_sound 7 [9; 2; 7; 7; 1; 4] 6);
    [simpl; lia|unfold INT_MAX; lia].
Defined.

(** X2. On an ascending region [s] (repeats allowed) [RegularBinarySearch]
    finds every key of [s], at a position that holds it, and returns -1 for
    every other key. *)
Theorem regular_search_complete (s rest : list Z) (value : Z) :
  ascending s = true ->
  2 * Z.of_nat (length s) <= INT_MAX ->
  (In value s ->
   exists p, RegularBinarySearch value (s ++ rest) (Z.of_nat (length s)) = Done p
             /\ 0 <= p < Z.of_nat (length s)
             /\ rd (s ++ rest) p = Done value)
  /\ (~ In value s ->
      RegularBinarySearch value (s ++ rest) (Z.of_nat (length s)) = Done (-1)).
Proof.
  intros Hasc Hint. pose proof (ascending_sorted s Hasc) as Hs. split.
  - intros Hin. unfold RegularBinarySearch.
    apply RegularBinarySearch_loop_sorted; try assumption; try lia.
    intros i x Hi Hx.
    assert (Hb : nth_error s i <> None) by congruence.
    apply nth_error_Some in Hb. lia.
  - intros Hnot.
    destruct (RegularBinarySearch_loop_sound value (s ++ rest)
                (Z.to_nat (Z.of_nat (length s))) 0 (Z.of_nat (length s)))
      as (p & Hp & Hor); try lia.
    { rewrite length_app. lia. }
    unfold RegularBinarySearch. rewrite Hp.
    destruct Hor as [->|[Hr Hv]]; [reflexivity|].
    exfalso. apply Hnot. rewrite rd_below in Hv by lia.
    eapply rd_In. exact Hv.
Qed.

Lemma regular_search_complete_witness :
  ascending [1; 3; 3; 8; 13] = true
  /\ 2 * Z.of_nat (length [1; 3; 3; 8; 13]) <= INT_MAX
  /\ (In 8 [1; 3; 3; 8; 13] ->
      exists p, RegularBinarySearch 8 ([1; 3; 3; 8; 13] ++ [0])
                  (Z.of_nat (length [1; 3; 3; 8; 13])) = Done p
                /\ 0 <= p < Z.of_nat (length [1; 3; 3; 8; 13])
                /\ rd ([1; 3; 3; 8; 13] ++ [0]) p = Done 8)
  /\ (~ In 8 [1; 3; 3; 8; 13] ->
      RegularBinarySearch 8 ([1; 3; 3; 8; 13] ++ [0])
        (Z.of_nat (length [1; 3; 3; 8; 13])) = Done (-1)).
Proof.
  split; [reflexivity|]. split; [unfold INT_MAX; simpl; lia|].
  apply (regular_search_complete [1; 3; 3; 8; 13] [0] 8);
    [reflexivity|unfold INT_MAX; simpl; lia].
Defined.

(** ** The two searches side by side *)

Section SearchMore.
Implicit Types s rest a : list Z.

(** On the layout of an ascending list the search for a key of the list,
    followed by [DeshuffleIndex], ends on a sorted position of that key. *)
Lemma search_deshuffle_layout s rest value :
  StronglySorted Z.le s -> Z.of_nat (length s) <= INT_MAX -> In value s ->
  exists p i,
    ShuffledBinarySearch value (layout s ++ rest) (Z.of_nat (length s)) = Done p
    /\ 0 <= p < Z.of_nat (length s)
    /\ (i < length s)%nat
    /\ DeshuffleIndex p (Z.of_nat (length s)) = Done (Z.of_nat i)
    /\ nth_error s i = Some value.
Proof.
  intros Hs Hmax Hin.
  destruct (ShuffledBinarySearch_layout s rest value Hs Hmax) as [Hfound _].
  destruct (Hfound Hin) as (p & Hp & Hrange & Hrd).
  destruct (DeshuffleIndex_layout s (Z.to_nat p)) as (j & Hj & Hde & Hnth);
    [lia|exact Hmax|].
  rewrite Z2Nat.id in Hde by lia.
  exists p, j. repeat split; try assumption; try lia.
  rewrite Hnth. rewrite rd_below in Hrd by (rewrite length_layout; lia).
  apply rd_nth_error in Hrd. destruct Hrd as [_ Hrd]. exact Hrd.
Qed.

Lemma ShuffledBinarySearch_loop_sound value a : forall fuel index count p,
  0 <= count -> 0 <= index -> index + count <= INT_MAX ->
  snd (ShuffledBinarySearch_loop fuel value a index count) = Done p ->
  p = -1 \/ (index <= p < index + count /\ rd a p = Done value).
Proof.
  induction fuel as [|fuel IH]; intros index count p Hc Hi Hint;
    cbn [ShuffledBinarySearch_loop]; destruct (Z.eqb_spec count 0) as [->|Hnz].
  1,3: cbn [snd]; intros [= <-]; left; reflexivity.
  - cbn [snd]. discriminate.
  - destruct (rd a index) as [read| |] eqn:Hrd; [|cbn [snd]; discriminate..].
    destruct (Z.eqb_spec value read) as [->|Hne].
    + cbn [snd]. intros [= <-]. right. split; [lia|exact Hrd].
    + unwrap.
      destruct (read <? value);
        match goal with
        | |- context [ShuffledBinarySearch_loop fuel value a ?i ?c] =>
            specialize (IH i c p ltac:(lia) ltac:(lia) ltac:(lia));
            destruct (ShuffledBinarySearch_loop fuel value a i c) as [reads r]
        end;
        cbn [snd] in *; intros Hr; destruct (IH Hr) as [->|[Hb Hv]];
        [left; reflexivity|right; split; [lia|exact Hv]
        |left; reflexivity|right; split; [lia|exact Hv]].
Qed.

(** Each round at least halves the count, so the reads are at most one more
    than its binary logarithm. *)
Lemma ShuffledBinarySearch_loop_reads_log value a : forall fuel index count,
  1 <= count -> 0 <= index -> index + count <= INT_MAX ->
  Z.of_nat (length (fst (ShuffledBinarySearch_loop fuel value a index count)))
  <= Z.log2 count + 1.
Proof.
  induction fuel as [|fuel IH]; intros index count Hc Hi Hint;
    cbn [ShuffledBinarySearch_loop]; destruct (Z.eqb_spec count 0) as [->|Hnz];
    try lia.
  - cbn [fst length]. pose proof (Z.log2_nonneg count). lia.
  - pose proof (Z.log2_nonneg count) as Hlog.
    destruct (rd a index) as [read| |] eqn:Hrd; [|cbn [fst length]; lia..].
    destruct (Z.eqb_spec value read) as [->|Hne]; [cbn [fst length]; lia|].
    unwrap.
    assert (Hhalf : forall c', 0 <= c' -> 2 * c' <= count ->
              forall i, 0 <= i -> i + c' <= INT_MAX ->
              Z.of_nat (length (fst (ShuffledBinarySearch_loop fuel value a i c')))
              <= Z.log2 count).
    { intros c' Hc' Hdbl i Hi' Hint'.
      destruct (Z.eq_dec c' 0) as [->|Hpos].
      - destruct fuel; cbn [ShuffledBinarySearch_loop fst length Z.eqb]; lia.
      - specialize (IH i c' ltac:(lia) Hi' Hint').
        assert (Z.log2 (2 * c') <= Z.log2 count) by (apply Z.log2_le_mono; lia).
        rewrite Z.log2_double in H by lia. lia. }
    destruct (read <? value);
      match goal with
      | |- context [ShuffledBinarySearch_loop fuel value a ?i ?c] =>
          specialize (Hhalf c ltac:(lia) ltac:(lia) i ltac:(lia) ltac:(lia));
          destruct (ShuffledBinarySearch_loop fuel value a i c) as [reads r]
      end;
      cbn [fst length] in *; lia.
Qed.

End SearchMore.

(** X3. Whatever the array and the [int] count, a position that
    [ShuffledBinarySearch] returns is -1 or lies in [0, count) and holds the
    key: on a badly shuffled array the search may miss a key, but it never
    answers with a position that holds another value. *)
Theorem shuffled_search_sound (value : Z) (a : list Z) (count p : Z) :
  0 <= count <= INT_MAX ->
  ShuffledBinarySearch value a count = Done p ->
  p = -1 \/ (0 <= p < count /\ rd a p = Done value).
Proof.
  intros Hc Hp.
  exact (ShuffledBinarySearch_loop_sound value a (Z.to_nat count) 0 count p
           ltac:(lia) ltac:(lia) ltac:(lia) Hp).
Qed.

Lemma shuffled_search_sound_witness :
  0 <= 6 <= INT_MAX
  /\ ShuffledBinarySearch 7 [9; 2; 7; 7; 1; 4] 6 = Done 3
  /\ (3 = -1 \/ (0 <= 3 < 6 /\ rd [9; 2; 7; 7; 1; 4] 3 = Done 7)).
Proof.
  split; [unfold INT_MAX; lia|]. split; [reflexivity|].
  apply (shuffled_search_sound 7 [9; 2; 7; 7; 1; 4] 6 3);
    [unfold INT_MAX; lia|reflexivity].
Defined.

(** X4. [ShuffledBinarySearch] reads at most floor(log2 count) + 1 elements,
    whatever the key and the array. *)
Theorem shuffled_search_reads_log (value : Z) (a : list Z) (count : Z) :
  0 <= count <= INT_MAX ->
  Z.of_nat (length (ShuffledBinarySearch_reads value a count))
  <= Z.log2 count + 1.
Proof.
  intros Hc. unfold ShuffledBinarySearch_reads.
  destruct (Z.eq_dec count 0) as [->|Hnz]; [cbn; lia|].
  apply ShuffledBinarySearch_loop_reads_log; lia.
Qed.

Lemma shuffled_search_reads_log_witness :
  0 <= 10 <= INT_MAX
  /\ Z.of_nat (length (ShuffledBinarySearch_reads 6
                         [5; 2; 1; 0; 4; 3; 8; 7; 6; 9] 10))
     <= Z.log2 10 + 1.
Proof.
  split; [unfold INT_MAX; lia|].
  apply (shuffled_search_reads_log 6 [5; 2; 1; 0; 4; 3; 8; 7; 6; 9] 10).
  unfold INT_MAX; lia.
Defined.

(** X5. On the shuffle of an ascending sequence that may repeat values, the
    search for a key of the sequence followed by [DeshuffleIndex] gives a
    sorted position at which the sequence holds that key. *)
Theorem deshuffle_search_holds_key (s : list Z) (value : Z) :
  ascending s = true ->
  Z.of_nat (length s) <= INT_MAX ->
  In value s ->
  exists t p i,
    ShuffleSortedArray s (Z.of_nat (length s)) = Done t
    /\ ShuffledBinarySearch value t (Z.of_nat (length s)) = Done p
    /\ DeshuffleIndex p (Z.of_nat (length s)) = Done (Z.of_nat i)
    /\ nth_error s i = Some value.
Proof.
  intros Hasc Hmax Hin. pose proof (ascending_sorted s Hasc) as Hs.
  destruct (search_deshuffle_layout s [] value Hs Hmax Hin)
    as (p & i & Hp & _ & _ & Hde & Hnth).
  rewrite app_nil_r in Hp.
  exists (layout s), p, i. repeat split; try assumption.
  rewrite <- (app_nil_r s) at 1. rewrite <- (app_nil_r (layout s)).
  apply ShuffleSortedArray_region. exact Hmax.
Qed.

Lemma deshuffle_search_holds_key_witness :
  ascending [1; 4; 4; 4; 6; 9; 9] = true
  /\ Z.of_nat (length [1; 4; 4; 4; 6; 9; 9]) <= INT_MAX
  /\ In 4 [1; 4; 4; 4; 6; 9; 9]
  /\ exists t p i,
       ShuffleSortedArray [1; 4; 4; 4; 6; 9; 9]
         (Z.of_nat (length [1; 4; 4; 4; 6; 9; 9])) = Done t
       /\ ShuffledBinarySearch 4 t (Z.of_nat (length [1; 4; 4; 4; 6; 9; 9]))
          = Done p
       /\ DeshuffleIndex p (Z.of_nat (length [1; 4; 4; 4; 6; 9; 9]))
          = Done (Z.of_nat i)
       /\ nth_error [1; 4; 4; 4; 6; 9; 9] i = Some 4.
Proof.
  split; [reflexivity|]. split; [unfold INT_MAX; simpl; lia|].
  split; [simpl; lia|].
  apply (deshuffle_search_holds_key [1; 4; 4; 4; 6; 9; 9] 4);
    [reflexivity|unfold INT_MAX; simpl; lia|simpl; lia].
Defined.

(** X6. Differential check: on a sequence without repeated values, for
    every key, present or not, [DeshuffleIndex] of the result of
    [ShuffledBinarySearch] on the shuffled array is the result of
    [RegularBinarySearch] on the sorted one. *)
Theorem shuffled_search_agrees_with_regular (s : list Z) (value : Z) :
  strictly_ascending s = true ->
  2 * Z.of_nat (length s) <= INT_MAX ->
  exists t,
    ShuffleSortedArray s (Z.of_nat (length s)) = Done t
    /\ (p <- ShuffledBinarySearch value t (Z.of_nat (length s)) ;;
        DeshuffleIndex p (Z.of_nat (length s)))
       = RegularBinarySearch value s (Z.of_nat (length s)).
Proof.
  intros Hstrict Hint.
  pose proof (strictly_ascending_sorted s Hstrict) as Hlt.
  pose proof (ascending_sorted s (strictly_ascending_ascending s Hstrict))
    as Hle.
  assert (Hmax : Z.of_nat (length s) <= INT_MAX) by (unfold INT_MAX in *; lia).
  exists (layout s). split.
  - rewrite <- (app_nil_r s) at 1. rewrite <- (app_nil_r (layout s)).
    apply ShuffleSortedArray_region. exact Hmax.
  - destruct (in_dec Z.eq_dec value s) as [Hin|Hnot].
    + destruct (search_deshuffle_layout s [] value Hle Hmax Hin)
        as (p & i & Hp & _ & Hi & Hde & Hnth).
      rewrite app_nil_r in Hp. rewrite Hp. cbn [bind]. rewrite Hde.
      unfold RegularBinarySearch.
      destruct (RegularBinarySearch_loop_sorted value s [] Hle Hin Hint
                  (Z.to_nat (Z.of_nat (length s))) 0 (Z.of_nat (length s)))
        as (q & Hq & Hr & Hv); try lia.
      { intros j x Hj Hx.
        assert (Hb : nth_error s j <> None) by congruence.
        apply nth_error_Some in Hb. lia. }
      rewrite app_nil_r in Hq, Hv. rewrite Hq. f_equal.
      apply rd_nth_error in Hv. destruct Hv as [_ Hv].
      rewrite <- (Z2Nat.id q) by lia. f_equal.
      eapply StronglySorted_lt_nth_inj; eassumption.
    + destruct (ShuffledBinarySearch_layout s [] value Hle Hmax) as [_ Hout].
      rewrite app_nil_r in Hout. rewrite (Hout Hnot). cbn [bind].
      destruct (RegularBinarySearch_loop_sound value s
                  (Z.to_nat (Z.of_nat (length s))) 0 (Z.of_nat (length s)))
        as (q & Hq & Hor); try lia.
      unfold RegularBinarySearch. rewrite Hq.
      destruct Hor as [->|[Hr Hv]]; [reflexivity|].
      exfalso. apply Hnot. eapply rd_In. exact Hv.
Qed.

Lemma shuffled_search_agrees_with_regular_witness :
  strictly_ascending [2; 3; 5; 7; 11; 13; 17; 19; 23] = true
  /\ 2 * Z.of_nat (length [2; 3; 5; 7; 11; 13; 17; 19; 23]) <= INT_MAX
  /\ exists t,
       ShuffleSortedArray [2; 3; 5; 7; 11; 13; 17; 19; 23]
         (Z.of_nat (length [2; 3; 5; 7; 11; 13; 17; 19; 23])) = Done t
       /\ (p <- ShuffledBinarySearch 12 t
                  (Z.of_nat (length [2; 3; 5; 7; 11; 13; 17; 19; 23])) ;;
           DeshuffleIndex p (Z.of_nat (length [2; 3; 5; 7; 11; 13; 17; 19; 23])))
          = RegularBinarySearch 12 [2; 3; 5; 7; 11; 13; 17; 19; 23]
              (Z.of_nat (length [2; 3; 5; 7; 11; 13; 17; 19; 23])).
Proof.
  split; [reflexivity|]. split; [unfold INT_MAX; simpl; lia|].
  apply (shuffled_search_agrees_with_regular
           [2; 3; 5; 7; 11; 13; 17; 19; 23] 12);
    [reflexivity|unfold INT_MAX; simpl; lia].
Defined.

(** ** The transforms as permutations of positions *)

Section PermutationFacts.
Context {A : Type}.
Implicit Types s t lo hi : list A.

Lemma layout_perm s : Permutation s (layout s).
Proof.
  induction s as [|lo m hi Hlo IHlo IHhi] using median_ind; [constructor|].
  rewrite layout_node by exact Hlo.
  rewrite <- Permutation_middle. constructor.
  apply Permutation_app; assumption.
Qed.

Lemma unlayout_perm t : Permutation t (unlayout t).
Proof.
  rewrite <- (layout_unlayout t) at 1. symmetry. apply layout_perm.
Qed.

End PermutationFacts.

Section DeshuffleBijection.

Lemma nth_error_seq0 n j : (j < n)%nat -> nth_error (seq 0 n) j = Some j.
Proof.
  intros Hj. rewrite (nth_error_nth' _ 0%nat) by (rewrite length_seq; exact Hj).
  rewrite seq_nth by exact Hj. reflexivity.
Qed.

(** [DeshuffleIndex] reads off the layout of the ranks 0, 1, ..., n-1. *)
Lemma DeshuffleIndex_seq n p :
  (p < n)%nat -> Z.of_nat n <= INT_MAX ->
  exists j, (j < n)%nat
            /\ DeshuffleIndex (Z.of_nat p) (Z.of_nat n) = Done (Z.of_nat j)
            /\ nth_error (layout (seq 0 n)) p = Some j.
Proof.
  intros Hp Hmax.
  destruct (DeshuffleIndex_layout (seq 0 n) p) as (j & Hj & Hde & Hnth);
    rewrite ?length_seq in *; try assumption.
  exists j. repeat split; try assumption.
  rewrite <- Hnth. apply nth_error_seq0. exact Hj.
Qed.

End DeshuffleBijection.

(** X7. [ShuffleSortedArray] and [SortShuffledArray] only rearrange: each
    returns an array whose first [count] elements are a permutation of those
    it was given and whose other elements are as they were. *)
Theorem transforms_permute_region (a : list Z) (count : Z) :
  0 <= count <= Z.of_nat (length a) ->
  count <= INT_MAX ->
  exists b c,
    ShuffleSortedArray a count = Done b
    /\ SortShuffledArray a count = Done c
    /\ Permutation (firstn (Z.to_nat count) a) (firstn (Z.to_nat count) b)
    /\ skipn (Z.to_nat count) b = skipn (Z.to_nat count) a
    /\ Permutation (firstn (Z.to_nat count) a) (firstn (Z.to_nat count) c)
    /\ skipn (Z.to_nat count) c = skipn (Z.to_nat count) a.
Proof.
  intros Hcount Hmax.
  set (blk := firstn (Z.to_nat count) a).
  set (post := skipn (Z.to_nat count) a).
  assert (Ha : a = blk ++ post) by (symmetry; apply firstn_skipn).
  assert (Hlen : Z.to_nat count = length blk)
    by (subst blk; rewrite length_firstn; lia).
  assert (Hcnt : count = Z.of_nat (length blk)) by lia.
  clearbody blk post. subst a. rewrite Hlen. rewrite Hcnt in *.
  exists (layout blk ++ post), (unlayout blk ++ post).
  rewrite ShuffleSortedArray_region, SortShuffledArray_region by exact Hmax.
  rewrite (firstn_app_at (length blk) (layout blk))
    by (rewrite length_layout; reflexivity).
  rewrite (skipn_app_at (length blk) (layout blk))
    by (rewrite length_layout; reflexivity).
  rewrite (firstn_app_at (length blk) (unlayout blk))
    by (rewrite length_unlayout; reflexivity).
  rewrite (skipn_app_at (length blk) (unlayout blk))
    by (rewrite length_unlayout; reflexivity).
  repeat split; try reflexivity; [apply layout_perm|apply unlayout_perm].
Qed.

Lemma transforms_permute_region_witness :
  (0 <= 9 <= Z.of_nat (length [4; 8; 1; 5; 5; 0; 3; 9; 2; 7]))
  /\ 9 <= INT_MAX
  /\ exists b c,
       ShuffleSortedArray [4; 8; 1; 5; 5; 0; 3; 9; 2; 7] 9 = Done b
       /\ SortShuffledArray [4; 8; 1; 5; 5; 0; 3; 9; 2; 7] 9 = Done c
       /\ Permutation (firstn (Z.to_nat 9) [4; 8; 1; 5; 5; 0; 3; 9; 2; 7])
            (firstn (Z.to_nat 9) b)
       /\ skipn (Z.to_nat 9) b = skipn (Z.to_nat 9) [4; 8; 1; 5; 5; 0; 3; 9; 2; 7]
       /\ Permutation (firstn (Z.to_nat 9) [4; 8; 1; 5; 5; 0; 3; 9; 2; 7])
            (firstn (Z.to_nat 9) c)
       /\ skipn (Z.to_nat 9) c = skipn (Z.to_nat 9) [4; 8; 1; 5; 5; 0; 3; 9; 2; 7].
Proof.
  split; [simpl; lia|]. split; [unfold INT_MAX; lia|].
  apply (transforms_permute_region [4; 8; 1; 5; 5; 0; 3; 9; 2; 7] 9);
    [simpl; lia|unfold INT_MAX; lia].
Defined.

(** X8. Position correspondence, for arrays of any content: after
    [ShuffleSortedArray] the element at position [p] of the region is the
    element that was at position [DeshuffleIndex p count], which lies in the
    region.  A second array shuffled alongside (values beside keys) is thus
    indexed by the deshuffled position of the first. *)
Theorem deshuffle_locates_original (a : list Z) (count p : Z) :
  0 <= p < count ->
  count <= Z.of_nat (length a) ->
  count <= INT_MAX ->
  exists b j,
    ShuffleSortedArray a count = Done b
    /\ DeshuffleIndex p count = Done j
    /\ 0 <= j < count
    /\ rd b p = rd a j.
Proof.
  intros Hp Hcount Hmax.
  set (blk := firstn (Z.to_nat count) a).
  set (post := skipn (Z.to_nat count) a).
  assert (Ha : a = blk ++ post) by (symmetry; apply firstn_skipn).
  assert (Hcnt : count = Z.of_nat (length blk))
    by (subst blk; rewrite length_firstn; lia).
  clearbody blk post. subst a count.
  destruct (DeshuffleIndex_layout blk (Z.to_nat p)) as (j & Hj & Hde & Hnth);
    [lia|exact Hmax|].
  rewrite Z2Nat.id in Hde by lia.
  exists (layout blk ++ post), (Z.of_nat j).
  split; [apply ShuffleSortedArray_region; exact Hmax|].
  split; [exact Hde|]. split; [lia|].
  rewrite !rd_below by (rewrite ?length_layout; lia).
  unfold rd. destruct (Z.ltb_spec p 0); [lia|].
  destruct (Z.ltb_spec (Z.of_nat j) 0); [lia|].
  rewrite Nat2Z.id, Hnth. reflexivity.
Qed.

Lemma deshuffle_locates_original_witness :
  0 <= 6 < 9
  /\ 9 <= Z.of_nat (length [4; 8; 1; 5; 5; 0; 3; 9; 2; 7])
  /\ 9 <= INT_MAX
  /\ exists b j,
       ShuffleSortedArray [4; 8; 1; 5; 5; 0; 3; 9; 2; 7] 9 = Done b
       /\ DeshuffleIndex 6 9 = Done j
       /\ 0 <= j < 9
       /\ rd b 6 = rd [4; 8; 1; 5; 5; 0; 3; 9; 2; 7] j.
Proof.
  split; [lia|]. split; [simpl; lia|]. split; [unfold INT_MAX; lia|].
  apply (deshuffle_locates_original [4; 8; 1; 5; 5; 0; 3; 9; 2; 7] 9 6);
    [lia|simpl; lia|unfold INT_MAX; lia].
Defined.

(** X9. For every [int] count [n], [DeshuffleIndex] is a bijection of
    [0, n): it maps the range into itself, different positions to different
    ranks, and reaches every rank. *)
Theorem deshuffle_bijection (n : Z) :
  0 <= n <= INT_MAX ->
  (forall p, 0 <= p < n ->
     exists j, DeshuffleIndex p n = Done j /\ 0 <= j < n)
  /\ (forall p q, 0 <= p < n -> 0 <= q < n ->
        DeshuffleIndex p n = DeshuffleIndex q n -> p = q)
  /\ (forall j, 0 <= j < n ->
        exists p, 0 <= p < n /\ DeshuffleIndex p n = Done j).
Proof.
  intros Hn.
  assert (Hat : forall p, 0 <= p < n ->
            exists j, (j < Z.to_nat n)%nat
                      /\ DeshuffleIndex p n = Done (Z.of_nat j)
                      /\ nth_error (layout (seq 0 (Z.to_nat n))) (Z.to_nat p)
                         = Some j).
  { intros p Hp.
    destruct (DeshuffleIndex_seq (Z.to_nat n) (Z.to_nat p))
      as (j & Hj & Hde & Hnth); [lia|lia|].
    rewrite !Z2Nat.id in Hde by lia. exists j. repeat split; assumption. }
  assert (Hnodup : NoDup (layout (seq 0 (Z.to_nat n))))
    by (eapply Permutation_NoDup; [apply layout_perm|apply seq_NoDup]).
  split; [|split].
  - intros p Hp. destruct (Hat p Hp) as (j & Hj & Hde & _).
    exists (Z.of_nat j). split; [exact Hde|lia].
  - intros p q Hp Hq Heq.
    destruct (Hat p Hp) as (j & Hj & Hdp & Hnp).
    destruct (Hat q Hq) as (k & Hk & Hdq & Hnq).
    rewrite Hdp, Hdq in Heq. injection Heq as Heq.
    apply Nat2Z.inj in Heq. subst k.
    assert (Z.to_nat p = Z.to_nat q); [|lia].
    apply (proj1 (NoDup_nth_error _) Hnodup).
    + rewrite length_layout, length_seq. lia.
    + rewrite Hnp, Hnq. reflexivity.
  - intros j Hj.
    assert (Hin : In (Z.to_nat j) (layout (seq 0 (Z.to_nat n)))).
    { eapply Permutation_in; [apply layout_perm|]. apply in_seq. lia. }
    apply In_nth_error in Hin. destruct Hin as [p Hp].
    assert (Hlt : (p < Z.to_nat n)%nat).
    { assert (Hb : nth_error (layout (seq 0 (Z.to_nat n))) p <> None)
        by congruence.
      apply nth_error_Some in Hb.
      rewrite length_layout, length_seq in Hb. exact Hb. }
    destruct (Hat (Z.of_nat p)) as (k & Hk & Hde & Hnth); [lia|].
    rewrite Nat2Z.id in Hnth. rewrite Hp in Hnth. injection Hnth as <-.
    exists (Z.of_nat p). split; [lia|]. rewrite Hde. f_equal. lia.
Qed.

Lemma deshuffle_bijection_witness :
  0 <= 12 <= INT_MAX
  /\ (forall p, 0 <= p < 12 ->
        exists j, DeshuffleIndex p 12 = Done j /\ 0 <= j < 12)
  /\ (forall p q, 0 <= p < 12 -> 0 <= q < 12 ->
        DeshuffleIndex p 12 = DeshuffleIndex q 12 -> p = q)
  /\ (forall j, 0 <= j < 12 ->
        exists p, 0 <= p < 12 /\ DeshuffleIndex p 12 = Done j).
Proof.
  split; [unfold INT_MAX; lia|].
  apply (deshuffle_bijection 12). unfold INT_MAX; lia.
Defined.

(** ** Insertions and removals, one after another *)

Section MutationMore.
Implicit Types s rest below above : list Z.


Lemma length_insert_sorted k s :
  length (insert_sorted k s) = S (length s).
Proof.
  rewrite <- (Permutation_length (insert_sorted_perm k s)). reflexivity.
Qed.

Lemma In_insert_sorted k s j : In j (insert_sorted k s) <-> j = k \/ In j s.
Proof.
  split; intros H.
  - apply (Permutation_in _ (Permutation_sym (insert_sorted_perm k s))) in H.
    destruct H as [->|H]; [left; reflexivity|right; exact H].
  - apply (Permutation_in _ (insert_sorted_perm k s)).
    destruct H as [->|H]; [left; reflexivity|right; exact H].
Qed.

(** A list without repeats around one of its elements. *)
Lemma strictly_sorted_split k s :
  StronglySorted Z.lt s -> In k s ->
  exists below above,
    s = below ++ k :: above
    /\ Forall (fun x => x < k) below /\ Forall (fun x => k < x) above.
Proof.
  intros Hs Hin. apply in_split in Hin. destruct Hin as (below & above & ->).
  apply StronglySorted_app_inv in Hs. destruct Hs as (_ & _ & Hb & Ha).
  exists below, above. repeat split; assumption.
Qed.

Lemma StronglySorted_lt_le s : StronglySorted Z.lt s -> StronglySorted Z.le s.
Proof.
  induction 1 as [|x t Ht IH Hx]; constructor; [exact IH|].
  eapply Forall_impl; [|exact Hx]. cbv beta. intros; lia.
Qed.


Lemma StronglySorted_lt_join below k above :
  StronglySorted Z.lt below -> StronglySorted Z.lt above ->
  Forall (fun x => x < k) below -> Forall (fun x => k < x) above ->
  StronglySorted Z.lt (below ++ above)
  /\ StronglySorted Z.lt (below ++ k :: above).
Proof.
  intros Hb Ha Hbk Hka. rewrite Forall_forall in Hbk, Hka.
  induction Hb as [|x below Hb IH Hx]; cbn [app].
  - split; [exact Ha|]. constructor; [exact Ha|].
    rewrite Forall_forall. exact Hka.
  - destruct IH as [IH1 IH2]; [intros y Hy; apply Hbk; right; exact Hy|].
    assert (Hxk : x < k) by (apply Hbk; left; reflexivity).
    rewrite Forall_forall in Hx.
    split; constructor; try assumption; rewrite Forall_forall; intros y Hy;
      apply in_app_or in Hy.
    + destruct Hy as [Hy|Hy]; [apply Hx; exact Hy|].
      specialize (Hka y Hy). lia.
    + destruct Hy as [Hy|[<-|Hy]]; [apply Hx; exact Hy|exact Hxk|].
      specialize (Hka y Hy). lia.
Qed.

Lemma wr_beyond a i v : Z.of_nat (length a) <= i -> wr a i v = Fault.
Proof.
  intros Hi. unfold wr. destruct (Z.ltb_spec i 0); [reflexivity|].
  assert (Hn : (length a <= Z.to_nat i)%nat) by lia.
  generalize (Z.to_nat i) Hn. clear. induction a as [|x a IH]; intros n Hn.
  - destruct n; reflexivity.
  - destruct n as [|n]; [cbn [length] in Hn; lia|].
    cbn [upd]. rewrite IH by (cbn [length] in Hn; lia). reflexivity.
Qed.

(** Without a spare slot the insertion of a new key writes past the array. *)
Lemma InsertShuffledArrayValue_no_room s value :
  StronglySorted Z.le s -> ~ In value s ->
  2 * Z.of_nat (length s) <= INT_MAX ->
  InsertShuffledArrayValue value (layout s) (Z.of_nat (length s)) = Fault.
Proof.
  intros Hs Hnot Hmax. unfold InsertShuffledArrayValue.
  destruct (ShuffledBinarySearch_layout s [] value Hs
              ltac:(unfold INT_MAX in *; lia)) as [_ Hout].
  rewrite app_nil_r in Hout.
  rewrite (Hout Hnot). cbn [bind Z.ltb Z.compare].
  rewrite <- (app_nil_r (layout s)) at 1.
  rewrite SortShuffledArray_layout by (unfold INT_MAX in *; lia). cbn [bind].
  destruct (sorted_split_absent value s Hs Hnot)
    as (below & above & -> & Hb & Ha).
  rewrite length_app in Hmax. rewrite length_app, Nat2Z.id, <- app_assoc.
  destruct (InsertShuffledArrayValue_loop_ok below above [] value
              Hb Ha Hmax (length below + length above) 0
              (Z.of_nat (length below + length above)) 0)
    as (first' & end' & index' & Hrun & Hexit); [lia|lia| |lia|].
  { destruct above; [right; split; [reflexivity|cbn [length]; lia]|].
    left. cbn [length]. lia. }
  rewrite Hrun. cbn [bind].
  destruct Hexit as [(Hne & -> & Habove)|(-> & ->)].
  - destruct (Z.eqb_spec end' first'); [contradiction|].
    unwrap. unfold memmove. rewrite !length_app. cbn [length].
    rewrite Nat.add_0_r.
    destruct (Z.ltb_spec (Z.of_nat (length below + length above))
                (Z.of_nat (length below) + 1
                 + (Z.of_nat (length below + length above)
                    - Z.of_nat (length below)))); [|lia].
    rewrite !orb_true_r. reflexivity.
  - rewrite Z.eqb_refl. cbn [bind app length].
    rewrite wr_beyond by (rewrite length_app; cbn [length]; lia).
    reflexivity.
Qed.

End MutationMore.

Section MutationChains.
Implicit Types s rest : list Z.

Lemma ShuffleSortedArray_whole s :
  Z.of_nat (length s) <= INT_MAX ->
  ShuffleSortedArray s (Z.of_nat (length s)) = Done (layout s).
Proof.
  intros Hmax. rewrite <- (app_nil_r s) at 1. rewrite <- (app_nil_r (layout s)).
  apply ShuffleSortedArray_region. exact Hmax.
Qed.

(** The sequence left by a removal from a sequence without repeats. *)
Lemma remove_one_strict k s :
  StronglySorted Z.lt s -> In k s ->
  StronglySorted Z.lt (remove_one k s)
  /\ insert_sorted k (remove_one k s) = s
  /\ (forall j, In j (remove_one k s) <-> In j s /\ j <> k)
  /\ S (length (remove_one k s)) = length s.
Proof.
  intros Hs Hin.
  destruct (strictly_sorted_split k s Hs Hin) as (below & above & -> & Hb & Ha).
  rewrite (remove_one_split k below above (StronglySorted_lt_le _ Hs)).
  pose proof (StronglySorted_app_inv Z.lt below k above Hs) as (Hsb & Hsa & _ & _).
  destruct (StronglySorted_lt_join below k above Hsb Hsa Hb Ha) as [Hjoin _].
  split; [exact Hjoin|]. split; [apply insert_sorted_split; assumption|].
  split.
  - rewrite Forall_forall in Hb, Ha. intros j. rewrite !in_app_iff. cbn [In].
    split.
    + intros [Hj|Hj]; [specialize (Hb j Hj)|specialize (Ha j Hj)];
        (split; [tauto|lia]).
    + intros [[Hj|[Hj|Hj]] Hne]; [left; exact Hj|congruence|right; exact Hj].
  - rewrite !length_app. cbn [length]. lia.
Qed.


End MutationChains.

(** X10. Insert, then look up: after [InsertShuffledArrayValue] has put a
    new key [k] into the shuffle of an ascending sequence [s],
    [ShuffledBinarySearch] on the grown region finds [k] and every key of
    [s], at a position that holds it, and returns -1 for every other key. *)
Theorem insert_then_search (s : list Z) (k x j : Z) (rest : list Z) :
  ascending s = true ->
  ~ In k s ->
  2 * Z.of_nat (length s) <= INT_MAX ->
  exists t a1,
    ShuffleSortedArray s (Z.of_nat (length s)) = Done t
    /\ InsertShuffledArrayValue k (t ++ x :: rest) (Z.of_nat (length s))
       = Done (a1, Z.of_nat (length s) + 1)
    /\ (j = k \/ In j s ->
        exists p,
          ShuffledBinarySearch j a1 (Z.of_nat (length s) + 1) = Done p
          /\ 0 <= p < Z.of_nat (length s) + 1
          /\ rd a1 p = Done j)
    /\ (j <> k -> ~ In j s ->
        ShuffledBinarySearch j a1 (Z.of_nat (length s) + 1) = Done (-1)).
Proof.
  intros Hasc Hnot Hint. pose proof (ascending_sorted s Hasc) as Hs.
  assert (Hmax : Z.of_nat (length s) + 1 <= INT_MAX)
    by (unfold INT_MAX in *; lia).
  exists (layout s), (layout (insert_sorted k s) ++ rest).
  split; [apply ShuffleSortedArray_whole; lia|].
  split; [apply InsertShuffledArrayValue_absent; assumption|].
  assert (Hlen : Z.of_nat (length s) + 1
                 = Z.of_nat (length (insert_sorted k s)))
    by (rewrite length_insert_sorted; lia).
  rewrite Hlen.
  destruct (ShuffledBinarySearch_layout (insert_sorted k s) rest j
              (insert_sorted_sorted k s Hs) ltac:(lia)) as [Hfound Hout].
  split.
  - intros Hj. apply Hfound. apply In_insert_sorted. exact Hj.
  - intros Hne Hns. apply Hout. rewrite In_insert_sorted. tauto.
Qed.

Lemma insert_then_search_witness :
  ascending [1; 3; 5; 7] = true
  /\ ~ In 4 [1; 3; 5; 7]
  /\ 2 * Z.of_nat (length [1; 3; 5; 7]) <= INT_MAX
  /\ exists t a1,
       ShuffleSortedArray [1; 3; 5; 7] (Z.of_nat (length [1; 3; 5; 7])) = Done t
       /\ InsertShuffledArrayValue 4 (t ++ 0 :: [8])
            (Z.of_nat (length [1; 3; 5; 7]))
          = Done (a1, Z.of_nat (length [1; 3; 5; 7]) + 1)
       /\ (5 = 4 \/ In 5 [1; 3; 5; 7] ->
           exists p,
             ShuffledBinarySearch 5 a1 (Z.of_nat (length [1; 3; 5; 7]) + 1)
             = Done p
             /\ 0 <= p < Z.of_nat (length [1; 3; 5; 7]) + 1
             /\ rd a1 p = Done 5)
       /\ (5 <> 4 -> ~ In 5 [1; 3; 5; 7] ->
           ShuffledBinarySearch 5 a1 (Z.of_nat (length [1; 3; 5; 7]) + 1)
           = Done (-1)).
Proof.
  split; [reflexivity|]. split; [simpl; lia|].
  split; [unfold INT_MAX; simpl; lia|].
  apply (insert_then_search [1; 3; 5; 7] 4 0 5 [8]);
    [reflexivity|simpl; lia|unfold INT_MAX; simpl; lia].
Defined.

(** X11. Remove, then look up: after [RemoveShuffledArrayValue] has taken a
    key [k] out of the shuffle of a sequence [s] without repeats,
    [ShuffledBinarySearch] on the shrunk region returns -1 for [k] and for
    every key that was not in [s], and still finds every other key of [s]. *)
Theorem remove_then_search (s : list Z) (k j : Z) (rest : list Z) :
  strictly_ascending s = true ->
  In k s ->
  Z.of_nat (length s) <= INT_MAX ->
  exists t a1,
    ShuffleSortedArray s (Z.of_nat (length s)) = Done t
    /\ RemoveShuffledArrayValue k (t ++ rest) (Z.of_nat (length s))
       = Done (a1, Z.of_nat (length s) - 1)
    /\ ShuffledBinarySearch k a1 (Z.of_nat (length s) - 1) = Done (-1)
    /\ (In j s -> j <> k ->
        exists p,
          ShuffledBinarySearch j a1 (Z.of_nat (length s) - 1) = Done p
          /\ 0 <= p < Z.of_nat (length s) - 1
          /\ rd a1 p = Done j)
    /\ (~ In j s ->
        ShuffledBinarySearch j a1 (Z.of_nat (length s) - 1) = Done (-1)).
Proof.
  intros Hstrict Hin Hmax.
  pose proof (strictly_ascending_sorted s Hstrict) as Hlt.
  pose proof (StronglySorted_lt_le s Hlt) as Hle.
  destruct (remove_one_strict k s Hlt Hin) as (Hrs & _ & Hmem & Hlen).
  exists (layout s), (layout (remove_one k s) ++ last s 0 :: rest).
  split; [apply ShuffleSortedArray_whole; exact Hmax|].
  split; [apply RemoveShuffledArrayValue_present; assumption|].
  replace (Z.of_nat (length s) - 1) with (Z.of_nat (length (remove_one k s)))
    by lia.
  assert (Hsearch : forall v,
            (In v (remove_one k s) ->
             exists p,
               ShuffledBinarySearch v
                 (layout (remove_one k s) ++ last s 0 :: rest)
                 (Z.of_nat (length (remove_one k s))) = Done p
               /\ 0 <= p < Z.of_nat (length (remove_one k s))
               /\ rd (layout (remove_one k s) ++ last s 0 :: rest) p = Done v)
            /\ (~ In v (remove_one k s) ->
                ShuffledBinarySearch v
                  (layout (remove_one k s) ++ last s 0 :: rest)
                  (Z.of_nat (length (remove_one k s))) = Done (-1))).
  { intros v. apply ShuffledBinarySearch_layout;
      [apply StronglySorted_lt_le; exact Hrs|lia]. }
  split; [|split].
  - apply (Hsearch k). rewrite Hmem. tauto.
  - intros Hj Hne. apply (Hsearch j). rewrite Hmem. tauto.
  - intros Hns. apply (Hsearch j). rewrite Hmem. tauto.
Qed.

Lemma remove_then_search_witness :
  strictly_ascending [1; 3; 5; 7; 9] = true
  /\ In 5 [1; 3; 5; 7; 9]
  /\ Z.of_nat (length [1; 3; 5; 7; 9]) <= INT_MAX
  /\ exists t a1,
       ShuffleSortedArray [1; 3; 5; 7; 9] (Z.of_nat (length [1; 3; 5; 7; 9]))
       = Done t
       /\ RemoveShuffledArrayValue 5 (t ++ [0]) (Z.of_nat (length [1; 3; 5; 7; 9]))
          = Done (a1, Z.of_nat (length [1; 3; 5; 7; 9]) - 1)
       /\ ShuffledBinarySearch 5 a1 (Z.of_nat (length [1; 3; 5; 7; 9]) - 1)
          = Done (-1)
       /\ (In 9 [1; 3; 5; 7; 9] -> 9 <> 5 ->
           exists p,
             ShuffledBinarySearch 9 a1 (Z.of_nat (length [1; 3; 5; 7; 9]) - 1)
             = Done p
             /\ 0 <= p < Z.of_nat (length [1; 3; 5; 7; 9]) - 1
             /\ rd a1 p = Done 9)
       /\ (~ In 9 [1; 3; 5; 7; 9] ->
           ShuffledBinarySearch 9 a1 (Z.of_nat (length [1; 3; 5; 7; 9]) - 1)
           = Done (-1)).
Proof.
  split; [reflexivity|]. split; [simpl; lia|].
  split; [unfold INT_MAX; simpl; lia|].
  apply (remove_then_search [1; 3; 5; 7; 9] 5 9 [0]);
    [reflexivity|simpl; lia|unfold INT_MAX; simpl; lia].
Defined.





(** X14. [InsertShuffledArrayValue] does not check for room: when the array
    ends with the region, the insertion of a key that is not yet there
    writes past the end of the array. *)
Theorem insert_without_room (s : list Z) (k : Z) :
  ascending s = true ->
  ~ In k s ->
  2 * Z.of_nat (length s) <= INT_MAX ->
  exists t,
    ShuffleSortedArray s (Z.of_nat (length s)) = Done t
    /\ InsertShuffledArrayValue k t (Z.of_nat (length s)) = Fault.
Proof.
  intros Hasc Hnot Hint. pose proof (ascending_sorted s Hasc) as Hs.
  exists (layout s).
  split; [apply ShuffleSortedArray_whole; unfold INT_MAX in *; lia|].
  apply InsertShuffledArrayValue_no_room; assumption.
Qed.

Lemma insert_without_room_witness :
  ascending [1; 3; 5; 7] = true
  /\ ~ In 4 [1; 3; 5; 7]
  /\ 2 * Z.of_nat (length [1; 3; 5; 7]) <= INT_MAX
  /\ exists t,
       ShuffleSortedArray [1; 3; 5; 7] (Z.of_nat (length [1; 3; 5; 7])) = Done t
       /\ InsertShuffledArrayValue 4 t (Z.of_nat (length [1; 3; 5; 7])) = Fault.
Proof.
  split; [reflexivity|]. split; [simpl; lia|].
  split; [unfold INT_MAX; simpl; lia|].
  apply (insert_without_room [1; 3; 5; 7] 4);
    [reflexivity|simpl; lia|unfold INT_MAX; simpl; lia].
Defined.



(** ** TestShuffle *)

Section TestFacts.
Implicit Types s l done todo rest vrest srest : list Z.

Lemma length_spread l : forall add y, length (spread add l y) = length l.
Proof.
  induction l as [|x t IH]; intros add y; cbn [spread length];
    [reflexivity|]. rewrite IH. reflexivity.
Qed.

Lemma spread_strict l : forall add y,
  ascending l = true -> strictly_ascending (spread add l y) = true.
Proof.
  induction l as [|x t IH]; intros add y Hasc; [reflexivity|].
  destruct t as [|x2 t]; [reflexivity|].
  cbn [ascending] in Hasc. apply andb_true_iff in Hasc.
  destruct Hasc as [Hle Hasc].
  specialize (IH (add + (if x =? x2 then 1 else 0)) y Hasc).
  cbn [spread hd] in IH |- *. cbn [strictly_ascending].
  apply andb_true_iff. split; [|exact IH].
  destruct (Z.eqb_spec x x2); lia.
Qed.

Lemma spread_fixed l : forall y,
  strictly_ascending l = true -> spread 0 l y = l.
Proof.
  induction l as [|x t IH]; intros y Hs; [reflexivity|].
  cbn [spread]. rewrite Z.add_0_r. f_equal.
  destruct t as [|x2 t]; [reflexivity|].
  cbn [strictly_ascending] in Hs. apply andb_true_iff in Hs.
  destruct Hs as [Hlt Hs]. cbn [hd].
  destruct (Z.eqb_spec x x2); [lia|]. apply IH. exact Hs.
Qed.

Lemma rd_next done x t y rest :
  rd (done ++ x :: t ++ y :: rest) (Z.of_nat (length done) + 1)
  = Done (hd y t).
Proof.
  rewrite rd_frame by lia. destruct t; reflexivity.
Qed.

(** The loop from position [length done] on, the elements [todo] ahead. *)
Lemma TestShuffle_unique_spread todo : forall done add fuel y rest,
  (length todo <= fuel)%nat ->
  0 <= add -> add + Z.of_nat (length todo) <= INT_MAX ->
  Forall (fun x => INT_MIN <= x /\ x + add + Z.of_nat (length todo) <= INT_MAX)
    todo ->
  Z.of_nat (length done + length todo) + 1 <= INT_MAX ->
  TestShuffle_unique fuel (done ++ todo ++ y :: rest)
    (Z.of_nat (length done + length todo)) add (Z.of_nat (length done))
  = Done (done ++ spread add todo y ++ y :: rest).
Proof.
  induction todo as [|x t IH]; intros done add fuel y rest Hfuel Hadd Haddmax
    Hrange Hint.
  - cbn [length app spread]. rewrite Nat.add_0_r.
    destruct fuel; cbn [TestShuffle_unique]; rewrite Z.ltb_irrefl;
      reflexivity.
  - destruct fuel as [|fuel]; [cbn [length] in Hfuel; lia|].
    cbn [length] in Hfuel, Haddmax, Hrange, Hint.
    inversion Hrange as [|x' t' Hx Ht]; subst.
    cbn [TestShuffle_unique].
    destruct (Z.ltb_spec (Z.of_nat (length done))
                (Z.of_nat (length done + length (x :: t))));
      [|cbn [length] in *; lia].
    unwrap. cbn [app].
    rewrite rd_frame0. cbn [rd Z.ltb Z.compare Z.to_nat nth_error bind].
    rewrite rd_next. cbn [bind].
    rewrite wr_frame0. cbn [wr Z.ltb Z.compare Z.to_nat upd bind].
    assert (Hn : 0 <= (if x =? hd y t then 1 else 0) <= 1)
      by (destruct (x =? hd y t); lia).
    replace (wrap (add + (if x =? hd y t then 0 + 1 else 0)))
      with (add + (if x =? hd y t then 1 else 0))
      by (destruct (x =? hd y t); rewrite wrap_small;
          unfold INT_MIN, INT_MAX in *; lia).
    rewrite (wrap_small (x + add)) by (unfold INT_MIN, INT_MAX in *; lia).
    specialize (IH (done ++ [x + add])
                  (add + (if x =? hd y t then 1 else 0)) fuel y rest).
    rewrite length_app in IH. cbn [length] in IH.
    replace (length done + 1 + length t)%nat
      with (length done + length (x :: t))%nat in IH by (cbn [length]; lia).
    replace (Z.of_nat (length done + 1)) with (Z.of_nat (length done) + 1)
      in IH by lia.
    rewrite <- !app_assoc in IH. cbn [app] in IH.
    cbn [spread app]. apply IH; try lia.
    + eapply Forall_impl; [|exact Ht]. cbv beta. intros; lia.
    + cbn [length]. lia.
Qed.

Lemma sorted_ascending l : StronglySorted Z.le l -> ascending l = true.
Proof.
  induction 1 as [|x t Ht IH Hx]; [reflexivity|].
  destruct t as [|y t]; [reflexivity|].
  cbn [ascending]. apply andb_true_iff. split; [|exact IH].
  inversion Hx; subst. lia.
Qed.

(** On the shuffle of a sequence without repeats the search for the element
    of rank [i], deshuffled, is [i]. *)
Lemma search_deshuffle_rank s srest i x :
  StronglySorted Z.lt s -> Z.of_nat (length s) <= INT_MAX ->
  nth_error s i = Some x ->
  exists p,
    ShuffledBinarySearch x (layout s ++ srest) (Z.of_nat (length s)) = Done p
    /\ DeshuffleIndex p (Z.of_nat (length s)) = Done (Z.of_nat i).
Proof.
  intros Hs Hmax Hi.
  destruct (search_deshuffle_layout s srest x (StronglySorted_lt_le s Hs) Hmax
              (nth_error_In _ _ Hi))
    as (p & j & Hp & _ & _ & Hde & Hj).
  exists p. split; [exact Hp|]. rewrite Hde. do 2 f_equal.
  eapply StronglySorted_lt_nth_inj; eassumption.
Qed.

Lemma TestShuffle_find_ok s vrest srest success :
  StronglySorted Z.lt s -> Z.of_nat (length s) + 1 <= INT_MAX ->
  forall fuel i,
    (i <= length s)%nat -> (length s - i <= fuel)%nat ->
    TestShuffle_find fuel (s ++ vrest) (layout s ++ srest)
      (Z.of_nat (length s)) success (Z.of_nat i)
    = Done success.
Proof.
  intros Hs Hmax.
  induction fuel as [|fuel IH]; intros i Hi Hfuel; cbn [TestShuffle_find];
    destruct (Z.ltb_spec (Z.of_nat i) (Z.of_nat (length s))) as [Hlt|Hge];
    try reflexivity; try lia.
  destruct (nth_error s i) as [x|] eqn:Hx;
    [|apply nth_error_None in Hx; lia].
  assert (Hrd : rd (s ++ vrest) (Z.of_nat i) = Done x).
  { apply rd_nth_error. split; [lia|].
    rewrite Nat2Z.id, nth_error_app1 by lia. exact Hx. }
  rewrite Hrd. cbn [bind].
  destruct (search_deshuffle_rank s srest i x Hs ltac:(lia) Hx)
    as (p & Hp & Hde).
  rewrite Hp. cbn [bind]. rewrite Hde. cbn [bind].
  rewrite Z.eqb_refl. cbn [negb]. unwrap.
  replace (Z.of_nat i + 1) with (Z.of_nat (S i)) by lia.
  apply IH; lia.
Qed.

(** One round on a sorted array with headroom: the check succeeds. *)
Lemma TestShuffle_round_ok s y vrest shuffled success :
  ascending s = true ->
  Forall (fun x => INT_MIN <= x /\ x + Z.of_nat (length s) <= INT_MAX) s ->
  Z.of_nat (length s) + 1 <= INT_MAX ->
  (length s <= length shuffled)%nat ->
  TestShuffle_round (s ++ y :: vrest) shuffled (Z.of_nat (length s)) success
  = Done (spread 0 s y ++ y :: vrest,
          layout (spread 0 s y) ++ skipn (length s) shuffled,
          success).
Proof.
  intros Hasc Hrange Hmax Hlen. unfold TestShuffle_round.
  rewrite Nat2Z.id.
  pose proof (TestShuffle_unique_spread s [] 0 (length s) y vrest) as Hu.
  cbn [app length Nat.add Z.of_nat] in Hu.
  rewrite Hu; try lia;
    [|eapply Forall_impl; [|exact Hrange]; cbv beta; intros; lia].
  cbn [bind]. unfold memcpy.
  rewrite length_app, length_spread. cbn [length].
  destruct (Z.ltb_spec (Z.of_nat (length s)) 0); [lia|].
  destruct (Z.ltb_spec (Z.of_nat (length s + S (length vrest)))
              (Z.of_nat (length s))); [lia|].
  destruct (Z.ltb_spec (Z.of_nat (length shuffled)) (Z.of_nat (length s)));
    [lia|].
  cbn [orb bind]. rewrite Nat2Z.id.
  rewrite (firstn_app_at (length s) (spread 0 s y))
    by (rewrite length_spread; reflexivity).
  pose proof (length_spread s 0 y) as Hl.
  pose proof (spread_strict s 0 y Hasc) as Hstrict.
  apply strictly_ascending_sorted in Hstrict.
  revert Hl Hstrict. generalize (spread 0 s y) as s'.
  intros s' Hl Hstrict. rewrite <- Hl in *.
  rewrite ShuffleSortedArray_region by lia.
  cbn [bind].
  pose proof (TestShuffle_find_ok s' (y :: vrest)
                (skipn (length s') shuffled) success Hstrict
                ltac:(lia) (length s') 0%nat ltac:(lia) ltac:(lia)) as Hf.
  cbn [Z.of_nat] in Hf. rewrite Hf. reflexivity.
Qed.

End TestFacts.

(** X16. The loop of [TestShuffle] that makes the values differ: on
    ascending values with headroom (no value plus the count leaves [int])
    and one more element after them, it leaves the region strictly
    ascending, of the same length, and the array after it untouched; values
    that already differ are left as they are. *)
Theorem test_unique_strictly_ascending (s : list Z) (y : Z) (rest : list Z) :
  ascending s = true ->
  Forall (fun x => INT_MIN <= x /\ x + Z.of_nat (length s) <= INT_MAX) s ->
  Z.of_nat (length s) + 1 <= INT_MAX ->
  exists s',
    TestShuffle_unique (Z.to_nat (Z.of_nat (length s))) (s ++ y :: rest)
      (Z.of_nat (length s)) 0 0
    = Done (s' ++ y :: rest)
    /\ length s' = length s
    /\ strictly_ascending s' = true
    /\ (strictly_ascending s = true -> s' = s).
Proof.
  intros Hasc Hrange Hmax. exists (spread 0 s y). rewrite Nat2Z.id.
  pose proof (TestShuffle_unique_spread s [] 0 (length s) y rest) as Hu.
  cbn [app length Nat.add Z.of_nat] in Hu.
  split; [|split; [apply length_spread|split;
                   [apply spread_strict; exact Hasc|apply spread_fixed]]].
  apply Hu; try lia.
  eapply Forall_impl; [|exact Hrange]. cbv beta. intros; lia.
Qed.

Lemma test_unique_strictly_ascending_witness :
  ascending [3; 3; 3; 5; 8; 8] = true
  /\ Forall (fun x => INT_MIN <= x
                      /\ x + Z.of_nat (length [3; 3; 3; 5; 8; 8]) <= INT_MAX)
       [3; 3; 3; 5; 8; 8]
  /\ Z.of_nat (length [3; 3; 3; 5; 8; 8]) + 1 <= INT_MAX
  /\ exists s',
       TestShuffle_unique (Z.to_nat (Z.of_nat (length [3; 3; 3; 5; 8; 8])))
         ([3; 3; 3; 5; 8; 8] ++ 8 :: [0])
         (Z.of_nat (length [3; 3; 3; 5; 8; 8])) 0 0
       = Done (s' ++ 8 :: [0])
       /\ length s' = length [3; 3; 3; 5; 8; 8]
       /\ strictly_ascending s' = true
       /\ (strictly_ascending [3; 3; 3; 5; 8; 8] = true
           -> s' = [3; 3; 3; 5; 8; 8]).
Proof.
  split; [reflexivity|].
  split; [repeat constructor; unfold INT_MIN, INT_MAX; simpl; lia|].
  split; [unfold INT_MAX; simpl; lia|].
  apply (test_unique_strictly_ascending [3; 3; 3; 5; 8; 8] 8 [0]);
    [reflexivity
    |repeat constructor; unfold INT_MIN, INT_MAX; simpl; lia
    |unfold INT_MAX; simpl; lia].
Defined.

Section TestLoop.
Variable sorted_rand : Z -> list Z -> list Z.

(** What the test needs of [rand] and [qsort]: the array keeps its size, its
    first [count] elements come out ascending, and none of them is within
    [count] of the largest [int]. *)
Hypothesis sorted_rand_ok : forall count values,
  2 <= count < MAX_ARRAY_SIZE ->
  Z.of_nat (length values) = MAX_ARRAY_SIZE ->
  Z.of_nat (length (sorted_rand count values)) = MAX_ARRAY_SIZE
  /\ ascending (firstn (Z.to_nat count) (sorted_rand count values)) = true
  /\ Forall (fun x => INT_MIN <= x /\ x + count <= INT_MAX)
       (firstn (Z.to_nat count) (sorted_rand count values)).

Lemma TestShuffle_loop_ok success : forall fuel count values shuffled,
  2 <= count <= MAX_ARRAY_SIZE ->
  Z.of_nat (length values) = MAX_ARRAY_SIZE ->
  Z.of_nat (length shuffled) = MAX_ARRAY_SIZE ->
  MAX_ARRAY_SIZE - count <= Z.of_nat fuel ->
  TestShuffle_loop sorted_rand fuel values shuffled count success
  = Done success.
Proof.
  induction fuel as [|fuel IH]; intros count values shuffled Hc Hv Hs Hfuel;
    cbn [TestShuffle_loop];
    destruct (Z.ltb_spec count MAX_ARRAY_SIZE) as [Hlt|Hge];
    try reflexivity; try lia.
  destruct (sorted_rand_ok count values ltac:(lia) Hv) as (Hlen & Hasc & Hr).
  set (v := sorted_rand count values) in *.
  set (s := firstn (Z.to_nat count) v) in *.
  assert (Hls : Z.of_nat (length s) = count).
  { subst s. rewrite length_firstn. lia. }
  destruct (skipn (Z.to_nat count) v) as [|y vrest] eqn:Hskip.
  { apply (f_equal (@length Z)) in Hskip. rewrite length_skipn in Hskip.
    cbn [length] in Hskip. lia. }
  assert (Hsplit : v = s ++ y :: vrest).
  { subst s. rewrite <- Hskip. symmetry. apply firstn_skipn. }
  rewrite Hsplit, <- Hls.
  unfold MAX_ARRAY_SIZE in *.
  rewrite TestShuffle_round_ok;
    [|exact Hasc|rewrite Hls; exact Hr|unfold INT_MAX; lia|lia].
  cbn [bind]. unfold iadd.
  rewrite wrap_small by (unfold INT_MIN, INT_MAX; lia).
  apply IH.
  - lia.
  - rewrite length_app, length_spread. rewrite Hsplit in Hlen.
    rewrite length_app in Hlen. exact Hlen.
  - rewrite length_app, length_layout, length_spread, length_skipn. lia.
  - lia.
Qed.

End TestLoop.

Lemma sorted_le_repeat (x : Z) (n : nat) : StronglySorted Z.le (repeat x n).
Proof.
  induction n as [|n IH]; cbn [repeat]; constructor; [exact IH|].
  apply Forall_forall. intros z Hz. apply repeat_spec in Hz. lia.
Qed.

Lemma firstn_repeat_min (x : Z) : forall n m,
  firstn n (repeat x m) = repeat x (Nat.min n m).
Proof.
  induction n as [|n IH]; intros [|m]; cbn [firstn repeat Nat.min];
    try reflexivity. rewrite IH. reflexivity.
Qed.

(** X17. [TestShuffle] returns 1, in the 1022 rounds it has, whenever
    [rand] and [qsort] hand every round an ascending sequence, repeats
    allowed, with no value within the count of the largest [int]. *)
Theorem test_shuffle_succeeds (sorted_rand : Z -> list Z -> list Z)
    (values shuffled : list Z) :
  (forall count v,
     2 <= count < MAX_ARRAY_SIZE ->
     Z.of_nat (length v) = MAX_ARRAY_SIZE ->
     Z.of_nat (length (sorted_rand count v)) = MAX_ARRAY_SIZE
     /\ ascending (firstn (Z.to_nat count) (sorted_rand count v)) = true
     /\ Forall (fun x => INT_MIN <= x /\ x + count <= INT_MAX)
          (firstn (Z.to_nat count) (sorted_rand count v))) ->
  Z.of_nat (length values) = MAX_ARRAY_SIZE ->
  Z.of_nat (length shuffled) = MAX_ARRAY_SIZE ->
  TestShuffle sorted_rand values shuffled = Done 1.
Proof.
  intros Hok Hv Hs. unfold TestShuffle.
  apply TestShuffle_loop_ok; try assumption; unfold MAX_ARRAY_SIZE; lia.
Qed.

Lemma test_shuffle_succeeds_witness :
  TestShuffle (fun _ v => repeat 7 (length v)) (repeat 0 1024)
    (repeat 0 1024)
  = Done 1.
Proof.
  apply (test_shuffle_succeeds (fun _ v => repeat 7 (length v))).
  - intros count v Hc Hv. rewrite repeat_length. split; [exact Hv|].
    rewrite firstn_repeat_min. split.
    + apply sorted_ascending, sorted_le_repeat.
    + apply Forall_forall. intros z Hz. apply repeat_spec in Hz.
      unfold MAX_ARRAY_SIZE, INT_MIN, INT_MAX in *. lia.
  - rewrite repeat_length. reflexivity.
  - rewrite repeat_length. reflexivity.
Defined.
